(** * teseo-data anonymizer: detector, pseudonym generator, engine

    A shallow embedding of [scripts/anonymizer/{config,detector,faker,
    anonymizer}.ts] and the properties of the anonymization pipeline.

    JavaScript strings are sequences of UTF-16 code units; the regular
    expressions of the detector carry no [u] flag, so they work on code
    units as well.  A string is therefore a [list N]. *)

From Stdlib Require Import String Ascii NArith ZArith List Lia Bool Arith.
From Stdlib Require Import DecimalString DecimalNat.
From stdpp Require Import gmap list option.

Set Default Proof Using "Type".
Local Open Scope nat_scope.

(** ** Strings *)

Abbreviation jsstring := (list N).

(** Literals are written as Rocq strings (ASCII only) and read as code units. *)
Definition js (s : string) : jsstring :=
  List.map N_of_ascii (list_ascii_of_string s).

(** [String.prototype.substring(a, b)]: both indices are clamped to the
    length and swapped when [a > b]. *)
Definition substring (s : jsstring) (a b : nat) : jsstring :=
  let a' := Nat.min a (length s) in
  let b' := Nat.min b (length s) in
  let lo := Nat.min a' b' in
  let hi := Nat.max a' b' in
  take (hi - lo) (drop lo s).

(** [String.prototype.substring(a)]: up to the end of the string. *)
Definition substringFrom (s : jsstring) (a : nat) : jsstring :=
  substring s a (length s).

(** ** config.ts *)

Definition CHUNK_SIZE : N := 80000.

Definition PERSON : jsstring := js "PERSON".
Definition EMAIL_ADDRESS : jsstring := js "EMAIL_ADDRESS".
Definition PHONE_NUMBER : jsstring := js "PHONE_NUMBER".
Definition IBAN_CODE : jsstring := js "IBAN_CODE".
Definition FISCAL_CODE : jsstring := js "FISCAL_CODE".
Definition CREDIT_CARD : jsstring := js "CREDIT_CARD".

Definition ENTITY_TYPES : list jsstring :=
  [PERSON; EMAIL_ADDRESS; PHONE_NUMBER; IBAN_CODE; FISCAL_CODE; CREDIT_CARD].

(** The type [EntityType] is the union of the six literals; at run time a
    type tag is just a string. *)
Definition isEntityType (ty : jsstring) : bool :=
  bool_decide (ty ∈ ENTITY_TYPES).

(** ** Regular expressions (ECMAScript semantics, no [u] flag)

    Only the constructs the six patterns use: character classes, sequence,
    disjunction, greedy quantifiers, [\b].  All groups of the patterns are
    non-capturing, so a match state is just its end index. *)

Inductive ClassAtom :=
| ClassChar (c : N)
| ClassRange (lo hi : N)
| ClassEscape_s
| ClassEscape_d.

Inductive Regex :=
| Empty
| CharacterClass (atoms : list ClassAtom)
| Seq (r1 r2 : Regex)
| Disjunction (r1 r2 : Regex)
| Quantified (min : nat) (max : option nat) (r : Regex)
| WordBoundary.

Record RegExp := {
  source : Regex;
  global : bool;
  ignoreCase : bool
}.

Definition N_range (lo hi : N) : list N :=
  List.map (fun k => (lo + N.of_nat k)%N) (seq 0 (N.to_nat (hi + 1 - lo))).

(** WhiteSpace and LineTerminator code points, the members of [\s]. *)
Definition WhiteSpace : list N :=
  ([9; 10; 11; 12; 13; 32; 160; 5760] ++ N_range 8192 8202
    ++ [8232; 8233; 8239; 8287; 12288; 65279])%N.

Definition atomMembers (a : ClassAtom) : list N :=
  match a with
  | ClassChar c => [c]
  | ClassRange lo hi => N_range lo hi
  | ClassEscape_s => WhiteSpace
  | ClassEscape_d => N_range 48 57
  end.

(** [Canonicalize] without [u]: the upper-case mapping of the code unit.
    The mapping is written out for ASCII; a code unit from 128 up is never
    mapped to an ASCII one (the standard keeps [ch] in that case), and the
    two patterns with the [i] flag have ASCII classes only, so leaving such
    units alone decides the same memberships. *)
Definition Canonicalize (ic : bool) (ch : N) : N :=
  if ic then (if (97 <=? ch)%N && (ch <=? 122)%N then ch - 32 else ch)%N
  else ch.

(** CharSetMatcher: some member of the class has the same canonical form. *)
Definition charSetMatches (ic : bool) (atoms : list ClassAtom) (ch : N) : bool :=
  existsb (fun a => (Canonicalize ic a =? Canonicalize ic ch)%N)
          (flat_map atomMembers atoms).

(** WordCharacters: [A-Za-z0-9_]. *)
Definition isWordCodeUnit (c : N) : bool :=
  ((65 <=? c) && (c <=? 90) || (97 <=? c) && (c <=? 122)
   || (48 <=? c) && (c <=? 57) || (c =? 95))%N.

(** IsWordChar(e): false at -1 and at the input length. [e] is given
    shifted by one so that it stays a natural number. *)
Definition IsWordCharBefore (text : jsstring) (x : nat) : bool :=
  match x with
  | 0 => false
  | S p => match text !! p with Some c => isWordCodeUnit c | None => false end
  end.

Definition IsWordCharAt (text : jsstring) (x : nat) : bool :=
  match text !! x with Some c => isWordCodeUnit c | None => false end.

Definition Continuation := nat -> option nat.
Definition Matcher := nat -> Continuation -> option nat.

(** RepeatMatcher(m, min, max, greedy = true, x, c).  The standard's
    recursion is on the match itself; here it is on [fuel], which the
    caller sets above [min] plus the number of code units left (every
    iteration past [min] has to consume one, by the empty check). *)
Fixpoint RepeatMatcher (fuel : nat) (m : Matcher) (min : nat) (max : option nat)
    (x : nat) (c : Continuation) : option nat :=
  match max with
  | Some 0 => c x
  | _ =>
    match fuel with
    | 0 => None
    | S fuel' =>
      let d : Continuation := fun y =>
        if (min =? 0) && (y =? x) then None
        else RepeatMatcher fuel' m (pred min) (pred <$> max) y c in
      if min =? 0 then
        match m x d with
        | Some z => Some z
        | None => c x
        end
      else m x d
    end
  end.

Definition repeatFuel (text : jsstring) (min x : nat) : nat :=
  S (min + (length text - x)).

Fixpoint matchRe (ic : bool) (text : jsstring) (r : Regex) {struct r} : Matcher :=
  match r with
  | Empty => fun x c => c x
  | CharacterClass atoms => fun x c =>
      match text !! x with
      | Some ch => if charSetMatches ic atoms ch then c (S x) else None
      | None => None
      end
  | Seq r1 r2 => fun x c =>
      matchRe ic text r1 x (fun y => matchRe ic text r2 y c)
  | Disjunction r1 r2 => fun x c =>
      match matchRe ic text r1 x c with
      | Some z => Some z
      | None => matchRe ic text r2 x c
      end
  | Quantified min max r' => fun x c =>
      RepeatMatcher (repeatFuel text min x) (matchRe ic text r') min max x c
  | WordBoundary => fun x c =>
      if xorb (IsWordCharBefore text x) (IsWordCharAt text x) then c x else None
  end.

(** RegExpBuiltinExec for a global, non-sticky pattern: try [lastIndex],
    [lastIndex + 1], ... up to the length of the input; [null] after that.
    The result is [match.index] and the end index of the match. *)
Fixpoint scanFrom (R : RegExp) (text : jsstring) (n : nat) (i : nat)
    : option (nat * nat) :=
  match n with
  | 0 => None
  | S n' =>
    match matchRe (ignoreCase R) text (source R) i Some with
    | Some e => Some (i, e)
    | None => scanFrom R text n' (S i)
    end
  end.

Definition RegExpBuiltinExec (R : RegExp) (text : jsstring) (lastIndex : nat)
    : option (nat * nat) :=
  scanFrom R text (S (length text) - lastIndex) lastIndex.

(** ** detector.ts *)

Record DetectedEntity := {
  type : jsstring;
  value : jsstring;
  start : nat;
  end_ : nat
}.

(** Pattern syntax helpers. *)
Definition range (lo hi : string) : ClassAtom :=
  match js lo, js hi with
  | [a], [b] => ClassRange a b
  | _, _ => ClassRange 1 0
  end.
Definition char (c : string) : ClassAtom :=
  match js c with [a] => ClassChar a | _ => ClassRange 1 0 end.
Definition Lit (c : string) : Regex := CharacterClass [char c].
Fixpoint seqs (rs : list Regex) : Regex :=
  match rs with
  | [] => Empty
  | [r] => r
  | r :: rs' => Seq r (seqs rs')
  end.
Definition Plus (r : Regex) : Regex := Quantified 1 None r.
Definition Opt (r : Regex) : Regex := Quantified 0 (Some 1) r.
Definition Times (n : nat) (r : Regex) : Regex := Quantified n (Some n) r.
Definition Between (n m : nat) (r : Regex) : Regex := Quantified n (Some m) r.
Definition AtLeast (n : nat) (r : Regex) : Regex := Quantified n None r.
Definition flags_g (r : Regex) : RegExp :=
  {| source := r; global := true; ignoreCase := false |}.
Definition flags_gi (r : Regex) : RegExp :=
  {| source := r; global := true; ignoreCase := true |}.

Definition digit : Regex := CharacterClass [range "0" "9"].
Definition upper : Regex := CharacterClass [range "A" "Z"].
Definition upperDigit : Regex := CharacterClass [range "A" "Z"; range "0" "9"].
Definition sep : Regex := CharacterClass [ClassEscape_s; char "."; char "-"].

(** [/[a-zA-Z0-9._%+-]+@[a-zA-Z0-9.-]+\.[a-zA-Z]{2,}/g] *)
Definition EMAIL_ADDRESS_re : RegExp :=
  flags_g
    (seqs [Plus (CharacterClass [range "a" "z"; range "A" "Z"; range "0" "9";
                                 char "."; char "_"; char "%"; char "+"; char "-"]);
           Lit "@";
           Plus (CharacterClass [range "a" "z"; range "A" "Z"; range "0" "9";
                                 char "."; char "-"]);
           Lit ".";
           AtLeast 2 (CharacterClass [range "a" "z"; range "A" "Z"])]).

(** [/(?:\+39\s?)?(?:3[0-9]{2}[\s.-]?[0-9]{6,7}|0[0-9]{1,3}[\s.-]?[0-9]{6,8})/g] *)
Definition PHONE_NUMBER_re : RegExp :=
  flags_g
    (seqs [Opt (seqs [Lit "+"; Lit "3"; Lit "9";
                      Opt (CharacterClass [ClassEscape_s])]);
           Disjunction
             (seqs [Lit "3"; Times 2 digit; Opt sep; Between 6 7 digit])
             (seqs [Lit "0"; Between 1 3 digit; Opt sep; Between 6 8 digit])]).

(** [/[A-Z]{2}[0-9]{2}[A-Z0-9]{4}[0-9]{7}(?:[A-Z0-9]?){0,16}/gi] *)
Definition IBAN_CODE_re : RegExp :=
  flags_gi
    (seqs [Times 2 upper; Times 2 digit; Times 4 upperDigit; Times 7 digit;
           Between 0 16 (Opt upperDigit)]).

(** [/[A-Z]{6}[0-9]{2}[A-Z][0-9]{2}[A-Z][0-9]{3}[A-Z]/gi] *)
Definition FISCAL_CODE_re : RegExp :=
  flags_gi
    (seqs [Times 6 upper; Times 2 digit; upper; Times 2 digit; upper;
           Times 3 digit; upper]).

(** [/(?:\d{4}[\s-]?){3}\d{4}/g] *)
Definition CREDIT_CARD_re : RegExp :=
  flags_g
    (seqs [Times 3 (seqs [Times 4 (CharacterClass [ClassEscape_d]);
                          Opt (CharacterClass [ClassEscape_s; char "-"])]);
           Times 4 (CharacterClass [ClassEscape_d])]).

(** The lower-case class of the name pattern: [a-z] and the code units of
    the six accented vowels (U+00E0, E8, E9, EC, F2, F9). *)
Definition lowerAccented : Regex :=
  CharacterClass [range "a" "z"; ClassChar 224; ClassChar 232; ClassChar 233;
                  ClassChar 236; ClassChar 242; ClassChar 249]%N.

Definition capitalizedWord : Regex := seqs [upper; Plus lowerAccented].

(** [\s+[A-Z][a-z......]+] *)
Definition nameGroup : Regex :=
  seqs [Plus (CharacterClass [ClassEscape_s]); capitalizedWord].

(** [/\b[A-Z][a-z......]+(?:\s+[A-Z][a-z......]+)+\b/g] *)
Definition PERSON_re : RegExp :=
  flags_g (seqs [WordBoundary; capitalizedWord; Plus nameGroup; WordBoundary]).

(** [Object.entries(PATTERNS)]: the keys in the order they are written. *)
Definition PATTERNS : list (jsstring * RegExp) :=
  [(EMAIL_ADDRESS, EMAIL_ADDRESS_re);
   (PHONE_NUMBER, PHONE_NUMBER_re);
   (IBAN_CODE, IBAN_CODE_re);
   (FISCAL_CODE, FISCAL_CODE_re);
   (CREDIT_CARD, CREDIT_CARD_re);
   (PERSON, PERSON_re)].

(** The [while ((match = pattern.exec(text)) !== null)] loop.  [lastIndex]
    is the pattern's own field; [detectEntities] sets it to 0 before the
    loop and [exec] sets it to the end of each match, so it is threaded
    here as the loop variable.  A pattern that matched the empty string
    would never leave the loop: [None] stands for that. *)
Fixpoint execLoop (fuel : nat) (ty : jsstring) (pattern : RegExp)
    (text : jsstring) (lastIndex : nat) : option (list DetectedEntity) :=
  match fuel with
  | 0 => None
  | S fuel' =>
    match RegExpBuiltinExec pattern text lastIndex with
    | None => Some []
    | Some (index, e) =>
      let match0 := substring text index e in
      rest ← execLoop fuel' ty pattern text e;
      Some ({| type := ty; value := match0; start := index;
               end_ := index + length match0 |} :: rest)
    end
  end.

(** [entities.sort((a, b) => b.start - a.start)]: the sort is stable, so
    its result is the one of any stable sort by descending [start]. *)
Fixpoint insertEntity (a : DetectedEntity) (l : list DetectedEntity)
    : list DetectedEntity :=
  match l with
  | [] => [a]
  | b :: l' => if start b <=? start a then a :: b :: l'
               else b :: insertEntity a l'
  end.

Definition sortEntities (l : list DetectedEntity) : list DetectedEntity :=
  foldr insertEntity [] l.

Definition detectEntities (text : jsstring) : option (list DetectedEntity) :=
  found ← mapM (fun '(ty, pattern) =>
                  execLoop (S (S (length text))) ty pattern text 0) PATTERNS;
  Some (sortEntities (concat found)).

(** ** faker.ts *)

(** The [@faker-js/faker] instance and [Math.random] are outside the
    repository: an interface with the calls [generateFakeValue] makes, over
    an abstract generator state. *)
Class FakerLib := {
  Rng : Type;
  faker_person_fullName : Rng -> jsstring * Rng;
  faker_internet_email : Rng -> jsstring * Rng;
  faker_phone_number : Rng -> jsstring * Rng;
  faker_finance_iban_IT : Rng -> jsstring * Rng;
  faker_finance_creditCardNumber : Rng -> jsstring * Rng;
  (** [Math.floor(Math.random() * n)] *)
  Math_floor_random_times : nat -> Rng -> nat * Rng
}.

(** [Map<string, string>] *)
Abbreviation StringMap := (gmap (list N) (list N)).

(** [entityMaps]: an object with one map per entity type, never reshaped. *)
Record EntityMaps := {
  map_PERSON : StringMap;
  map_EMAIL_ADDRESS : StringMap;
  map_PHONE_NUMBER : StringMap;
  map_IBAN_CODE : StringMap;
  map_FISCAL_CODE : StringMap;
  map_CREDIT_CARD : StringMap
}.

Definition emptyMaps : EntityMaps :=
  {| map_PERSON := ∅; map_EMAIL_ADDRESS := ∅; map_PHONE_NUMBER := ∅;
     map_IBAN_CODE := ∅; map_FISCAL_CODE := ∅; map_CREDIT_CARD := ∅ |}.

(** [entityMaps[type]].  [None] is for a [type] that is not one of the six
    keys: the lookup gives [undefined] (or, for a name found on
    [Object.prototype], a value without a [has] method). *)
Definition getMap (em : EntityMaps) (ty : jsstring) : option StringMap :=
  if decide (ty = PERSON) then Some (map_PERSON em)
  else if decide (ty = EMAIL_ADDRESS) then Some (map_EMAIL_ADDRESS em)
  else if decide (ty = PHONE_NUMBER) then Some (map_PHONE_NUMBER em)
  else if decide (ty = IBAN_CODE) then Some (map_IBAN_CODE em)
  else if decide (ty = FISCAL_CODE) then Some (map_FISCAL_CODE em)
  else if decide (ty = CREDIT_CARD) then Some (map_CREDIT_CARD em)
  else None.

(** The effect of a mutation [f] of the map object [entityMaps[type]]. *)
Definition updMap (em : EntityMaps) (ty : jsstring) (f : StringMap -> StringMap)
    : EntityMaps :=
  let '{| map_PERSON := p; map_EMAIL_ADDRESS := e; map_PHONE_NUMBER := n;
          map_IBAN_CODE := i; map_FISCAL_CODE := c; map_CREDIT_CARD := k |} := em in
  {| map_PERSON := if decide (ty = PERSON) then f p else p;
     map_EMAIL_ADDRESS := if decide (ty = EMAIL_ADDRESS) then f e else e;
     map_PHONE_NUMBER := if decide (ty = PHONE_NUMBER) then f n else n;
     map_IBAN_CODE := if decide (ty = IBAN_CODE) then f i else i;
     map_FISCAL_CODE := if decide (ty = FISCAL_CODE) then f c else c;
     map_CREDIT_CARD := if decide (ty = CREDIT_CARD) then f k else k |}.

(** How a call ends. *)
Inductive Outcome (A : Type) :=
| Returns (a : A)
| ThrowsTypeError
| Diverges.
Arguments Returns {A} a.
Arguments ThrowsTypeError {A}.
Arguments Diverges {A}.

Section Anonymizer.
Context `{FakerLib}.

(** The module state: the six maps and the generator behind [faker]. *)
Record Session := {
  entityMaps : EntityMaps;
  fakerState : Rng
}.

Definition M (A : Type) : Type := Session -> Outcome (A * Session).

Definition ret {A} (a : A) : M A := fun st => Returns (a, st).

Definition bind {A B} (m : M A) (k : A -> M B) : M B := fun st =>
  match m st with
  | Returns (a, st') => k a st'
  | ThrowsTypeError => ThrowsTypeError
  | Diverges => Diverges
  end.

Notation "x ←' m ; k" := (bind m (fun x => k))
  (at level 100, m at next level, right associativity).

(** Calls into the generator: only [fakerState] changes. *)
Definition Gen (A : Type) : Type := Rng -> A * Rng.

Definition gret {A} (a : A) : Gen A := fun r => (a, r).
Definition gbind {A B} (m : Gen A) (k : A -> Gen B) : Gen B := fun r =>
  let (a, r') := m r in k a r'.

Definition liftGen {A} (m : Gen A) : M A := fun st =>
  let (a, r') := m (fakerState st) in
  Returns (a, {| entityMaps := entityMaps st; fakerState := r' |}).

Definition letters : jsstring := js "ABCDEFGHIJKLMNOPQRSTUVWXYZ".

(** [letters[Math.floor(Math.random() * letters.length)] ?? "A"] *)
Definition randomLetter : Gen jsstring :=
  gbind (Math_floor_random_times (length letters)) (fun k =>
  gret [default 65%N (letters !! k)]).

(** [Math.floor(Math.random() * 10).toString()] *)
Definition randomDigit : Gen jsstring :=
  gbind (Math_floor_random_times 10) (fun k =>
  gret (js (NilZero.string_of_uint (Nat.to_uint k)))).

Fixpoint gconcat (l : list (Gen jsstring)) : Gen jsstring :=
  match l with
  | [] => gret []
  | m :: l' => gbind m (fun a => gbind (gconcat l') (fun b => gret (a ++ b)))
  end.

Definition generateFakeFiscalCode : Gen jsstring :=
  gconcat [randomLetter; randomLetter; randomLetter; randomLetter;
           randomLetter; randomLetter; randomDigit; randomDigit;
           randomLetter; randomDigit; randomDigit; randomLetter;
           randomDigit; randomDigit; randomDigit; randomLetter].

Definition generateFakeValue (ty : jsstring) : Gen jsstring :=
  if decide (ty = PERSON) then faker_person_fullName
  else if decide (ty = EMAIL_ADDRESS) then faker_internet_email
  else if decide (ty = PHONE_NUMBER) then faker_phone_number
  else if decide (ty = IBAN_CODE) then faker_finance_iban_IT
  else if decide (ty = FISCAL_CODE) then generateFakeFiscalCode
  else if decide (ty = CREDIT_CARD) then faker_finance_creditCardNumber
  else gret (js "[REDACTED_" ++ ty ++ js "]").

(** [map.set(key, v)] on [entityMaps[type]]. *)
Definition mapSet (ty key v : jsstring) : M unit := fun st =>
  Returns (tt, {| entityMaps := updMap (entityMaps st) ty (insert key v);
                  fakerState := fakerState st |}).

(** [getFakeValue].  [map.has] on a missing map throws a [TypeError].
    The [!] of [map.get(originalValue)!] is erased at run time; the value
    is there, having been found or just set ([getFakeValue_stored]), and
    were it not, the caller would see [undefined]. *)
Definition getFakeValue (ty originalValue : jsstring) : M jsstring := fun st =>
  match getMap (entityMaps st) ty with
  | None => ThrowsTypeError
  | Some map =>
    (_ ←' (if bool_decide (is_Some (map !! originalValue)) then ret tt
           else (v ←' liftGen (generateFakeValue ty);
                 mapSet ty originalValue v));
     fun st' =>
       match getMap (entityMaps st') ty with
       | Some map' => Returns (default (js "undefined") (map' !! originalValue), st')
       | None => ThrowsTypeError
       end) st
  end.

(** [for (const map of Object.values(entityMaps)) map.clear()] *)
Definition resetMaps : M unit := fun st =>
  Returns (tt, {| entityMaps :=
                    foldr (fun ty em => updMap em ty (fun _ => ∅))
                          (entityMaps st) ENTITY_TYPES;
                  fakerState := fakerState st |}).

(** ** anonymizer.ts *)

(** The [for (const entity of entities)] loop over [result]. *)
Fixpoint replaceLoop (entities : list DetectedEntity) (result : jsstring)
    : M jsstring :=
  match entities with
  | [] => ret result
  | entity :: rest =>
    fakeValue ←' getFakeValue (type entity) (value entity);
    replaceLoop rest
      (substring result 0 (start entity) ++ fakeValue
         ++ substringFrom result (end_ entity))
  end.

Definition anonymizeText (text : jsstring) : M jsstring :=
  match detectEntities text with
  | None => fun _ => Diverges
  | Some entities => replaceLoop entities text
  end.

(** [for (let i = 0; i < text.length; i += size) chunks.push(...)]; the
    loop runs at most [text.length] times for a positive [size]. *)
Fixpoint chunkLoop (fuel : nat) (size : nat) (text : jsstring) (i : nat)
    : list jsstring :=
  match fuel with
  | 0 => []
  | S fuel' =>
    if i <? length text
    then substring text i (i + size) :: chunkLoop fuel' size text (i + size)
    else []
  end.

Fixpoint forEachChunk (chunks : list jsstring) : M (list jsstring) :=
  match chunks with
  | [] => ret []
  | chunk :: rest =>
    a ←' anonymizeText chunk;
    anonymizedChunks ←' forEachChunk rest;
    ret (a :: anonymizedChunks)
  end.

(** [anonymizeTextChunked]; the [console.log] lines are left out. *)
Definition anonymizeTextChunked (text : jsstring) : M jsstring :=
  let chunks := chunkLoop (length text) (N.to_nat CHUNK_SIZE) text 0 in
  anonymizedChunks ←' forEachChunk chunks;
  ret (concat anonymizedChunks).

End Anonymizer.

(** ** A concrete generator

    Fixed, realistic values, cycling with a counter; used to run the
    pipeline on concrete inputs. *)

Definition pick (l : list string) (r : nat) : jsstring * nat :=
  (js (nth (r mod length l) l ""%string), S r).

#[export] Instance sampleFaker : FakerLib := {|
  Rng := nat;
  faker_person_fullName :=
    pick ["Luca Bianchi"; "Anna Verdi"; "Paolo Neri"]%string;
  faker_internet_email :=
    pick ["luca.bianchi@example.com"; "anna_verdi12@libero.it"]%string;
  faker_phone_number :=
    pick ["+39 347 555 0192"; "06 5550 1234"]%string;
  faker_finance_iban_IT :=
    pick ["IT27O0300203280284975661237"]%string;
  faker_finance_creditCardNumber :=
    pick ["4539-1488-0343-6467"; "6011000990139424"]%string;
  Math_floor_random_times := fun n r => ((7 * r + 3) mod n, S r)
|}.

Definition freshSession : Session :=
  {| entityMaps := emptyMaps; fakerState := 0 : @Rng sampleFaker |}.

(** ** What a pattern can match

    The strings a pattern matches between two indices of an input, read
    off the syntax; the matcher's results are among them
    ([matchRe_sound]). *)

Fixpoint Iter (L : nat -> nat -> Prop) (n : nat) (x y : nat) : Prop :=
  match n with
  | 0 => y = x
  | S n' => exists m, L x m /\ Iter L n' m y
  end.

Definition withinMax (max : option nat) (n : nat) : Prop :=
  match max with Some k => n <= k | None => True end.

Fixpoint Lang (ic : bool) (text : jsstring) (r : Regex) (x y : nat) : Prop :=
  match r with
  | Empty => y = x
  | CharacterClass atoms =>
      exists ch, text !! x = Some ch /\ charSetMatches ic atoms ch = true /\ y = S x
  | Seq r1 r2 => exists m, Lang ic text r1 x m /\ Lang ic text r2 m y
  | Disjunction r1 r2 => Lang ic text r1 x y \/ Lang ic text r2 x y
  | Quantified min max r' =>
      exists n, min <= n /\ withinMax max n /\ Iter (Lang ic text r') n x y
  | WordBoundary =>
      y = x /\ xorb (IsWordCharBefore text x) (IsWordCharAt text x) = true
  end.

(** No quantifier [{min,max}] with [max < min] (an early error in JS). *)
Fixpoint wfRegex (r : Regex) : bool :=
  match r with
  | Empty | CharacterClass _ | WordBoundary => true
  | Seq r1 r2 | Disjunction r1 r2 => wfRegex r1 && wfRegex r2
  | Quantified min max r' =>
      match max with Some k => min <=? k | None => true end && wfRegex r'
  end.

(** The least number of code units a match consumes. *)
Fixpoint minLen (r : Regex) : nat :=
  match r with
  | Empty | WordBoundary => 0
  | CharacterClass _ => 1
  | Seq r1 r2 => minLen r1 + minLen r2
  | Disjunction r1 r2 => Nat.min (minLen r1) (minLen r2)
  | Quantified min _ r' => min * minLen r'
  end.

(** Continuations that agree wherever a match from [x] can end, and
    matchers that cannot tell such continuations apart. *)
Definition agreeFrom (text : jsstring) (x : nat) (c1 c2 : Continuation) : Prop :=
  forall y, x <= y -> y <= Nat.max x (length text) -> c1 y = c2 y.

Definition respectful (text : jsstring) (m : Matcher) : Prop :=
  forall x c1 c2, agreeFrom text x c1 c2 -> m x c1 = m x c2.

(** [text[x:y]] for [x <= y]. *)
Definition slice (text : jsstring) (x y : nat) : jsstring :=
  take (y - x) (drop x text).

(** ** Properties of detected entities *)

(** The invariant of [DetectedEntity] with respect to the scanned text. *)
Definition validEntity (text : jsstring) (e : DetectedEntity) : Prop :=
  0 <= start e /\ start e < end_ e /\ end_ e <= length text
  /\ value e = substring text (start e) (end_ e).

(** Descending [start]: each entity starts no further left than the next. *)
Fixpoint descendingStart (l : list DetectedEntity) : Prop :=
  match l with
  | a :: (b :: _) as l' => start b <= start a /\ descendingStart l'
  | _ => True
  end.

(** An entity that is a match of the pattern registered for its type. *)
Definition fromPattern (text : jsstring) (e : DetectedEntity) : Prop :=
  exists R, (type e, R) ∈ PATTERNS
    /\ Lang (ignoreCase R) text (source R) (start e) (end_ e).

(** Adjacent entities of a descending sequence that do not overlap. *)
Fixpoint nonOverlapping (l : list DetectedEntity) : Prop :=
  match l with
  | a :: (b :: _) as l' => end_ b <= start a /\ nonOverlapping l'
  | _ => True
  end.

(** A descending sequence of spans, each inside [0, b] and each ending
    where the one before it (to its right) starts, or earlier. *)
Fixpoint disjointBelow (b : nat) (es : list DetectedEntity) : Prop :=
  match es with
  | [] => True
  | e :: es' => start e <= end_ e /\ end_ e <= b /\ disjointBelow (start e) es'
  end.

(** ** Structure of an anonymized text *)

Definition spanOf (e : DetectedEntity) : nat * nat := (start e, end_ e).

(** The pieces of [text] from [pos] on that lie outside the spans, the
    spans being given by ascending start: one piece before each span and
    one after the last (a piece is empty where spans touch or overlap). *)
Fixpoint outside (text : jsstring) (pos : nat) (spans : list (nat * nat))
    : list jsstring :=
  match spans with
  | [] => [drop pos text]
  | (s, e) :: rest =>
      take (s - pos) (drop pos text) :: outside text (Nat.max pos e) rest
  end.

(** Pieces with one replacement between each two of them. *)
Fixpoint interleave (pieces reps : list jsstring) : jsstring :=
  match pieces, reps with
  | p :: ps, r :: rs => p ++ r ++ interleave ps rs
  | p :: _, [] => p
  | [], _ => []
  end.

(** [out] keeps the text outside the spans of [es] (given by descending
    start, as the detector returns them), in order, and has some
    replacement where each span was. *)
Definition structurePreserved (text : jsstring) (es : list DetectedEntity)
    (out : jsstring) : Prop :=
  exists reps, length reps = length es
    /\ out = interleave (outside text 0 (spanOf <$> reverse es)) reps.

(** ** Chunks *)

(** Every chunk has [size] code units, but the last, which has from 1 to
    [size]. *)
Fixpoint fixedSizeChunks (size : nat) (chunks : list jsstring) : Prop :=
  match chunks with
  | [] => True
  | [c] => 0 < length c <= size
  | c :: rest => length c = size /\ fixedSizeChunks size rest
  end.

Section Runs.
Context `{FakerLib}.

(** [anonymizeText] run on each chunk in turn, each run starting in the
    session the previous one left. *)
Inductive runChunks : list jsstring -> Session -> list jsstring -> Session -> Prop :=
| runChunks_nil st : runChunks [] st [] st
| runChunks_cons chunk rest st a st1 outs st2 :
    anonymizeText chunk st = Returns (a, st1) ->
    runChunks rest st1 outs st2 ->
    runChunks (chunk :: rest) st (a :: outs) st2.

(** The value stored for a pair in the consistency map. *)
Definition storedValue (st : Session) (ty v : jsstring) : option jsstring :=
  getMap (entityMaps st) ty ≫= (fun map => map !! v).

End Runs.

(** ** The shape of a person name *)

Definition isUpperAZ (c : N) : Prop := (65 <= c <= 90)%N.

Definition isLowerOrAccented (c : N) : Prop :=
  (97 <= c <= 122)%N \/ c ∈ [224; 232; 233; 236; 242; 249]%N.

Definition isWhiteSpace (c : N) : Prop := c ∈ WhiteSpace.

(** An upper-case letter and one or more lower-case or accented ones. *)
Definition capitalizedWordShape (w : jsstring) : Prop :=
  exists c cs, w = c :: cs /\ isUpperAZ c /\ cs <> []
    /\ Forall isLowerOrAccented cs.

(** A capitalized word and one or more groups of a separator and a
    capitalized word. *)
Definition personShape (sepOK : jsstring -> Prop) (v : jsstring) : Prop :=
  exists w (groups : list (jsstring * jsstring)),
    capitalizedWordShape w /\ groups <> []
    /\ Forall (fun gr => sepOK gr.1 /\ capitalizedWordShape gr.2) groups
    /\ v = w ++ concat ((fun gr => gr.1 ++ gr.2) <$> groups).

Definition singleSpace (s : jsstring) : Prop := s = [32%N].

Definition whiteSpaceRun (s : jsstring) : Prop :=
  s <> [] /\ Forall isWhiteSpace s.

(** ** Concrete inputs *)

(** A name whose last word runs into an e-mail address: the two spans
    overlap on the 32 letters before the [@]. *)
Definition overlapText : jsstring :=
  js "Scrivere a Maria Rossibianchiverdinerigiallibruni@posta.it, grazie".

Definition overlapEntities : list DetectedEntity :=
  [ {| type := EMAIL_ADDRESS;
       value := js "Rossibianchiverdinerigiallibruni@posta.it";
       start := 17; end_ := 58 |};
    {| type := PERSON;
       value := js "Maria Rossibianchiverdinerigiallibruni";
       start := 11; end_ := 49 |} ].

(** ** Sessions over time *)

Section SessionOrder.
Context `{FakerLib}.

(** A session reached from another by [getFakeValue] calls, with no
    [resetMaps] in between. *)
Inductive laterSession : Session -> Session -> Prop :=
| laterSession_refl st : laterSession st st
| laterSession_step ty v f st st1 st2 :
    getFakeValue ty v st = Returns (f, st1) ->
    laterSession st1 st2 ->
    laterSession st st2.

(** Whatever is stored in [st] is stored, with the same value, in [st']. *)
Definition keepsStored (st st' : Session) : Prop :=
  forall ty v f, storedValue st ty v = Some f -> storedValue st' ty v = Some f.

End SessionOrder.

(** Entities with the same type and value have the same replacement. *)
Definition consistentReplacements (es : list DetectedEntity)
    (reps : list jsstring) : Prop :=
  forall i j e1 e2 r1 r2,
    es !! i = Some e1 -> es !! j = Some e2 ->
    reps !! i = Some r1 -> reps !! j = Some r2 ->
    type e1 = type e2 -> value e1 = value e2 -> r1 = r2.

(** ** Further notions for the detector *)

(** Every entity ends at or before the start of every entity before it in
    the sequence: pairwise disjoint spans, rightmost first. *)
Fixpoint disjointDescending (l : list DetectedEntity) : Prop :=
  match l with
  | [] => True
  | a :: l' => Forall (fun b => end_ b <= start a) l' /\ disjointDescending l'
  end.

(** Non-empty spans from [from] on, each starting where the one before it
    ends, or later. *)
Fixpoint ascendingFrom (from : nat) (l : list DetectedEntity) : Prop :=
  match l with
  | [] => True
  | a :: l' => from <= start a /\ start a < end_ a /\ ascendingFrom (end_ a) l'
  end.

(** The most code units a match consumes, where the pattern bounds it. *)
Fixpoint maxLen (r : Regex) : option nat :=
  match r with
  | Empty | WordBoundary => Some 0
  | CharacterClass _ => Some 1
  | Seq r1 r2 => a ← maxLen r1; b ← maxLen r2; Some (a + b)
  | Disjunction r1 r2 => a ← maxLen r1; b ← maxLen r2; Some (Nat.max a b)
  | Quantified _ max r' => k ← max; a ← maxLen r'; Some (k * a)
  end.

(** The length of a value of each type: least, and most where bounded. *)
Definition lengthRange (ty : jsstring) : nat * option nat :=
  if decide (ty = EMAIL_ADDRESS) then (6, None)
  else if decide (ty = PHONE_NUMBER) then (8, Some 17)
  else if decide (ty = IBAN_CODE) then (15, Some 31)
  else if decide (ty = FISCAL_CODE) then (16, Some 16)
  else if decide (ty = CREDIT_CARD) then (16, Some 19)
  else if decide (ty = PERSON) then (5, None)
  else (0, None).

Definition lengthInRange (e : DetectedEntity) : Prop :=
  (lengthRange (type e)).1 <= length (value e)
  /\ withinMax (lengthRange (type e)).2 (length (value e)).

(** Code units without which no pattern matches: every pattern needs a
    digit, an [@] or a capital letter A-Z. *)
Definition isTrigger (c : N) : bool :=
  ((48 <=? c) && (c <=? 57) || (c =? 64) || (65 <=? c) && (c <=? 90))%N.

(** ** Further notions for the generator *)

Inductive ShapeClass := ShapeLetter | ShapeDigit.

Definition inShapeClass (k : ShapeClass) (c : N) : Prop :=
  match k with
  | ShapeLetter => isUpperAZ c
  | ShapeDigit => (48 <= c <= 57)%N
  end.

(** Six letters, two digits, a letter, two digits, a letter, three
    digits, a letter. *)
Definition fiscalCodeShape : list ShapeClass :=
  [ShapeLetter; ShapeLetter; ShapeLetter; ShapeLetter; ShapeLetter;
   ShapeLetter; ShapeDigit; ShapeDigit; ShapeLetter; ShapeDigit; ShapeDigit;
   ShapeLetter; ShapeDigit; ShapeDigit; ShapeDigit; ShapeLetter].

(** [Math.floor(Math.random() * n)] is below [n], [Math.random()] being
    below 1. *)
Definition drawsInRange `{FakerLib} : Prop :=
  forall n r, 0 < n -> (Math_floor_random_times n r).1 < n.

(** Every class of the pattern matches code units of [P] only. *)
Fixpoint classesWithin (P : N -> Prop) (ic : bool) (r : Regex) : Prop :=
  match r with
  | Empty | WordBoundary => True
  | CharacterClass atoms =>
      forall ch, charSetMatches ic atoms ch = true -> P ch
  | Seq r1 r2 | Disjunction r1 r2 =>
      classesWithin P ic r1 /\ classesWithin P ic r2
  | Quantified _ _ r' => classesWithin P ic r'
  end.

(** The fiscal code the generator makes as an entity of a text in which
    [pre] stands before it. *)
Definition fiscalCodeEntity (pre code : jsstring) : DetectedEntity :=
  {| type := FISCAL_CODE; value := code;
     start := length pre; end_ := length pre + length code |}.

(** ** index.ts *)

(** [s.split(sep)] for a separator of one code unit: the pieces between
    the separators, one piece for a string without any. *)
Fixpoint split (sep : N) (s : jsstring) : list jsstring :=
  match s with
  | [] => [[]]
  | c :: s' =>
    if (c =? sep)%N then [] :: split sep s'
    else match split sep s' with
         | piece :: pieces => (c :: piece) :: pieces
         | [] => [[c]]
         end
  end.

(** [parts.join(sep)] *)
Fixpoint join (sep : jsstring) (parts : list jsstring) : jsstring :=
  match parts with
  | [] => []
  | [p] => p
  | p :: rest => p ++ sep ++ join sep rest
  end.

(** [l.slice(0, n)], [n] being the integer [slice] makes of its argument:
    a negative [n] counts from the end. *)
Definition sliceTo {A} (l : list A) (n : Z) : list A :=
  if (n <? 0)%Z then take (Z.to_nat (Z.of_nat (length l) + n)) l
  else take (Z.to_nat n) l.

(** [s.padStart(targetLength, padString)] *)
Definition padStart (targetLength : nat) (padString s : jsstring) : jsstring :=
  let fillLen := targetLength - length s in
  if (fillLen =? 0) || (length padString =? 0) then s
  else take fillLen (concat (replicate fillLen padString)) ++ s.

(** [String(n)] for a natural number. *)
Definition natToString (n : nat) : jsstring :=
  js (NilZero.string_of_uint (Nat.to_uint n)).

(** What [getTimestamp] reads off [new Date()]: [getFullYear()],
    [getMonth()] (from 0) and [getDate()]. *)
Record DateParts := {
  getFullYear : nat;
  getMonth : nat;
  getDate : nat
}.

Definition getTimestamp (now : DateParts) : jsstring :=
  let year := getFullYear now in
  let month := padStart 2 (js "0") (natToString (getMonth now + 1)) in
  let day := padStart 2 (js "0") (natToString (getDate now)) in
  natToString year ++ js "_" ++ month ++ js "_" ++ day.



(** [getOutputFileName], the clock being a parameter.  [parts.pop()]
    takes the last piece off [parts]. *)
Definition getOutputFileName (now : DateParts) (inputFile : jsstring)
    : jsstring :=
  let parts := split 46 inputFile in
  let ext := default (js "undefined") (list.last parts) in
  let parts := take (length parts - 1) parts in
  let name := join (js ".") parts in
  let timestamp := getTimestamp now in
  name ++ js "_anonymized_" ++ timestamp ++ js "." ++ ext.

(** What [getMonth()] and [getDate()] can give: a month from 0 to 11, a
    day from 1 to 31. *)
Definition validDate (d : DateParts) : Prop :=
  getMonth d < 12 /\ 1 <= getDate d <= 31.

Section Files.
Context `{FakerLib}.


Definition firstLines (text : jsstring) (n : Z) : jsstring :=
  let lines := sliceTo (split 10 text) n in
  join [10%N] lines.


End Files.

(** ** csv.ts *)

(** [getDateString] is [getTimestamp] word for word. *)
Definition getDateString (now : DateParts) : jsstring :=
  let year := getFullYear now in
  let month := padStart 2 (js "0") (natToString (getMonth now + 1)) in
  let day := padStart 2 (js "0") (natToString (getDate now)) in
  natToString year ++ js "_" ++ month ++ js "_" ++ day.

(** [str.replace] with the global pattern of one double quote and the
    replacement of two: every quote is doubled.  34 is the code unit of
    the quote, 44 of the comma, 10 of the line feed. *)
Definition doubleQuotes (str : jsstring) : jsstring :=
  flat_map (fun c => if (c =? 34)%N then [34; 34]%N else [c]) str.

Definition escapeCSV (str : jsstring) : jsstring :=
  if bool_decide (44%N ∈ str) || bool_decide (34%N ∈ str)
     || bool_decide (10%N ∈ str)
  then [34%N] ++ doubleQuotes str ++ [34%N]
  else str.

(** The number of double quotes in a string. *)
Definition countQuotes (s : jsstring) : nat :=
  length (filter (fun c => c = 34%N) s).

(** ** Decimal digits *)

Definition isDigit (c : N) : Prop := (48 <= c <= 57)%N.

(** The number two digits stand for. *)
Definition twoDigits (s : jsstring) : nat :=
  match s with
  | [a; b] => 10 * (N.to_nat a - 48) + (N.to_nat b - 48)
  | _ => 0
  end.

(** Two digits that stand for [k]. *)
Definition paddedTo2 (k : nat) : bool :=
  let s := padStart 2 (js "0") (natToString k) in
  (length s =? 2) && (twoDigits s =? k)
  && forallb (fun c => (48 <=? c) && (c <=? 57))%N s.

(** * Properties *)

(** ** The matcher *)

Section MatcherFacts.
Variable ic : bool.
Variable text : jsstring.

Lemma Iter_le (L : nat -> nat -> Prop) (k : nat) :
  (forall x y, L x y -> x + k <= y) ->
  forall n x y, Iter L n x y -> x + n * k <= y.
Proof.
  intros HL n. induction n as [|n IH]; simpl; intros x y Hit.
  - subst. lia.
  - destruct Hit as (m & Hxm & Hmy).
    apply HL in Hxm. apply IH in Hmy. lia.
Qed.

Lemma Iter_upper (L : nat -> nat -> Prop) (b : nat) :
  (forall x y, L x y -> y <= Nat.max x b) ->
  forall n x y, Iter L n x y -> y <= Nat.max x b.
Proof.
  intros HL n. induction n as [|n IH]; simpl; intros x y Hit.
  - subst. lia.
  - destruct Hit as (m & Hxm & Hmy).
    apply HL in Hxm. apply IH in Hmy. lia.
Qed.

(** A match consumes at least [minLen] code units ... *)
Lemma Lang_minLen (r : Regex) :
  forall x y, Lang ic text r x y -> x + minLen r <= y.
Proof.
  induction r as [|atoms|r1 IH1 r2 IH2|r1 IH1 r2 IH2|min max r IH|];
    simpl; intros x y HL.
  - subst. lia.
  - destruct HL as (ch & _ & _ & ->). lia.
  - destruct HL as (m & H1 & H2). apply IH1 in H1. apply IH2 in H2. lia.
  - destruct HL as [H1|H2]; [apply IH1 in H1|apply IH2 in H2]; lia.
  - destruct HL as (n & Hmin & _ & Hit).
    apply (Iter_le _ _ IH) in Hit. nia.
  - destruct HL as [-> _]. lia.
Qed.

(** ... and never runs past the end of the input. *)
Lemma Lang_upper (r : Regex) :
  forall x y, Lang ic text r x y -> y <= Nat.max x (length text).
Proof.
  induction r as [|atoms|r1 IH1 r2 IH2|r1 IH1 r2 IH2|min max r IH|];
    simpl; intros x y HL.
  - subst. lia.
  - destruct HL as (ch & Hch & _ & ->).
    apply lookup_lt_Some in Hch. lia.
  - destruct HL as (m & H1 & H2). apply IH1 in H1. apply IH2 in H2. lia.
  - destruct HL as [H1|H2]; [apply IH1 in H1|apply IH2 in H2]; lia.
  - destruct HL as (n & _ & _ & Hit).
    apply (Iter_upper _ _ IH) in Hit. lia.
  - destruct HL as [-> _]. lia.
Qed.

(** The repeat loop returns only what some number of iterations, within
    the quantifier's bounds, followed by the continuation returns. *)
Lemma RepeatMatcher_sound (L : nat -> nat -> Prop) (m : Matcher) :
  (forall x c z, m x c = Some z -> exists y, L x y /\ c y = Some z) ->
  forall fuel min max x c z,
    withinMax max min ->
    RepeatMatcher fuel m min max x c = Some z ->
    exists n y, min <= n /\ withinMax max n /\ Iter L n x y /\ c y = Some z.
Proof.
  intros Hm fuel. unfold withinMax.
  induction fuel as [|fuel IH]; intros min max x c z Hwf Hrun.
  - destruct max as [[|k]|]; simpl in *; try discriminate.
    exists 0, x. repeat split; auto; lia.
  - assert (Hstep :
      forall y, max <> Some 0 ->
                (if (min =? 0) && (y =? x) then None
                 else RepeatMatcher fuel m (pred min) (pred <$> max) y c) = Some z ->
                L x y ->
                exists n y', min <= n /\ withinMax max n /\ Iter L n x y' /\ c y' = Some z).
    { intros y Hmax0 Hd HL.
      destruct ((min =? 0) && (y =? x)); [discriminate|].
      apply IH in Hd.
      - destruct Hd as (n & y' & Hn & Hmax & Hit & Hc).
        exists (S n), y'. repeat split; auto; [lia| |exists y; auto].
        destruct max as [[|k]|]; simpl in *; [congruence|lia|lia].
      - destruct max as [[|k]|]; simpl in *; [congruence|lia|lia]. }
    destruct max as [[|k]|]; simpl in Hrun.
    + exists 0, x. simpl in *. repeat split; auto; lia.
    + destruct (min =? 0) eqn:Hmin.
      * destruct (m x _) as [z'|] eqn:Hmx.
        -- inversion Hrun; subst z'. apply Hm in Hmx.
           destruct Hmx as (y & HL & Hd). eapply Hstep; eauto; congruence.
        -- apply Nat.eqb_eq in Hmin. subst min.
           exists 0, x. simpl. repeat split; auto; lia.
      * apply Hm in Hrun. destruct Hrun as (y & HL & Hd).
        eapply Hstep; eauto; congruence.
    + destruct (min =? 0) eqn:Hmin.
      * destruct (m x _) as [z'|] eqn:Hmx.
        -- inversion Hrun; subst z'. apply Hm in Hmx.
           destruct Hmx as (y & HL & Hd). eapply Hstep; eauto; congruence.
        -- apply Nat.eqb_eq in Hmin. subst min.
           exists 0, x. simpl. repeat split; auto.
      * apply Hm in Hrun. destruct Hrun as (y & HL & Hd).
        eapply Hstep; eauto; congruence.
Qed.

(** Soundness of the backtracking matcher. *)
Lemma matchRe_sound (r : Regex) :
  wfRegex r = true ->
  forall x c z,
    matchRe ic text r x c = Some z ->
    exists y, Lang ic text r x y /\ c y = Some z.
Proof.
  induction r as [|atoms|r1 IH1 r2 IH2|r1 IH1 r2 IH2|min max r IH|];
    intros Hwf x c z Hrun; cbn [matchRe wfRegex Lang] in *.
  - eauto.
  - destruct (text !! x) as [ch|] eqn:Hch; [|discriminate].
    destruct (charSetMatches ic atoms ch) eqn:Hcs; [|discriminate].
    exists (S x). split; eauto.
  - apply andb_true_iff in Hwf as [Hwf1 Hwf2].
    apply (IH1 Hwf1) in Hrun. destruct Hrun as (m & H1 & Hrun).
    apply (IH2 Hwf2) in Hrun. destruct Hrun as (y & H2 & Hc).
    eauto.
  - apply andb_true_iff in Hwf as [Hwf1 Hwf2].
    destruct (matchRe ic text r1 x c) as [z'|] eqn:H1.
    + inversion Hrun; subst z'.
      apply (IH1 Hwf1) in H1. destruct H1 as (y & H1 & Hc). eauto.
    + apply (IH2 Hwf2) in Hrun. destruct Hrun as (y & H2 & Hc). eauto.
  - apply andb_true_iff in Hwf as [Hwfq Hwfr].
    apply (RepeatMatcher_sound (Lang ic text r) _ (IH Hwfr)) in Hrun.
    + destruct Hrun as (n & y & Hn & Hmax & Hit & Hc). eauto 6.
    + destruct max as [k|]; simpl; auto. by apply Nat.leb_le.
  - destruct (xorb _ _) eqn:Hx; [|discriminate]. eauto.
Qed.

End MatcherFacts.

(** ** The fuel of the repeat loop is enough *)

Section RepeatFuel.
Variable ic : bool.
Variable text : jsstring.

Local Abbreviation agreeFrom := (agreeFrom text).
Local Abbreviation respectful := (respectful text).

Lemma RepeatMatcher_ext (m : Matcher) :
  respectful m ->
  forall fuel min max x c1 c2,
    agreeFrom x c1 c2 ->
    RepeatMatcher fuel m min max x c1 = RepeatMatcher fuel m min max x c2.
Proof using Type.
  intros Hm fuel. induction fuel as [|fuel IH]; intros min max x c1 c2 Hc.
  - destruct max as [[|k]|]; simpl; auto. apply Hc; lia.
  - assert (Hx : c1 x = c2 x) by (apply Hc; lia).
    assert (Hd : agreeFrom x
              (fun y => if (min =? 0) && (y =? x) then None
                        else RepeatMatcher fuel m (pred min) (pred <$> max) y c1)
              (fun y => if (min =? 0) && (y =? x) then None
                        else RepeatMatcher fuel m (pred min) (pred <$> max) y c2)).
    { intros y Hxy Hy. destruct ((min =? 0) && (y =? x)); [done|].
      apply IH. intros z Hyz Hz. apply Hc; lia. }
    apply Hm in Hd.
    destruct max as [[|k]|]; cbn [RepeatMatcher];
      [exact Hx|rewrite Hd, Hx; done..].
Qed.

Lemma matchRe_ext (r : Regex) : respectful (matchRe ic text r).
Proof using Type.
  induction r as [|atoms|r1 IH1 r2 IH2|r1 IH1 r2 IH2|min max r IH|];
    intros x c1 c2 Hc; cbn [matchRe].
  - apply Hc; lia.
  - destruct (text !! x) as [ch|] eqn:Hch; [|done].
    apply lookup_lt_Some in Hch.
    destruct (charSetMatches ic atoms ch); [|done]. apply Hc; lia.
  - apply IH1. intros y Hxy Hy. apply IH2.
    intros z Hyz Hz. apply Hc; lia.
  - rewrite (IH1 x c1 c2 Hc), (IH2 x c1 c2 Hc). done.
  - by apply RepeatMatcher_ext.
  - destruct (xorb _ _); [|done]. apply Hc; lia.
Qed.

(** Above [min] plus the code units left, the amount of fuel makes no
    difference. *)
Lemma RepeatMatcher_fuel (m : Matcher) :
  respectful m ->
  forall fuel1 fuel2 min max x c,
    min + (length text - x) < fuel1 ->
    min + (length text - x) < fuel2 ->
    RepeatMatcher fuel1 m min max x c = RepeatMatcher fuel2 m min max x c.
Proof using Type.
  intros Hm fuel1.
  induction fuel1 as [|fuel1 IH]; intros fuel2 min max x c H1 H2; [lia|].
  destruct fuel2 as [|fuel2]; [lia|].
  assert (Hd : agreeFrom x
            (fun y => if (min =? 0) && (y =? x) then None
                      else RepeatMatcher fuel1 m (pred min) (pred <$> max) y c)
            (fun y => if (min =? 0) && (y =? x) then None
                      else RepeatMatcher fuel2 m (pred min) (pred <$> max) y c)).
  { intros y Hxy Hy.
    destruct (min =? 0) eqn:Hmin; simpl.
    - apply Nat.eqb_eq in Hmin. subst min.
      destruct (y =? x) eqn:Hyx; [done|].
      apply Nat.eqb_neq in Hyx. apply IH; simpl; lia.
    - apply Nat.eqb_neq in Hmin. apply IH; lia. }
  apply Hm in Hd.
  destruct max as [[|k]|]; cbn [RepeatMatcher];
    [done|rewrite Hd; done..].
Qed.

(** The matcher's result with the fuel it takes is its result with any
    larger amount. *)
Lemma repeatFuel_enough (r : Regex) (min : nat) (max : option nat)
    (x extra : nat) (c : Continuation) :
  RepeatMatcher (repeatFuel text min x + extra) (matchRe ic text r) min max x c
  = matchRe ic text (Quantified min max r) x c.
Proof using Type.
  cbn [matchRe]. apply RepeatMatcher_fuel.
  - apply matchRe_ext.
  - unfold repeatFuel. lia.
  - unfold repeatFuel. lia.
Qed.

End RepeatFuel.

(** ** substring *)

Lemma substring_take_drop (s : jsstring) (a b : nat) :
  a <= b -> substring s a b = take (b - a) (drop a s).
Proof.
  intros Hab. unfold substring. cbv zeta.
  destruct (decide (b <= length s)) as [Hb|Hb].
  - replace (Nat.min b (length s)) with b by lia.
    replace (Nat.min a (length s)) with a by lia.
    replace (Nat.min a b) with a by lia.
    replace (Nat.max a b) with b by lia. done.
  - destruct (decide (a <= length s)) as [Ha|Ha].
    + replace (Nat.min b (length s)) with (length s) by lia.
      replace (Nat.min a (length s)) with a by lia.
      replace (Nat.min a (length s)) with a by lia.
      replace (Nat.max a (length s)) with (length s) by lia.
      rewrite !take_ge; auto; rewrite length_drop; lia.
    + replace (Nat.min b (length s)) with (length s) by lia.
      replace (Nat.min a (length s)) with (length s) by lia.
      rewrite Nat.min_id, Nat.max_id, Nat.sub_diag.
      rewrite (drop_ge s a) by lia. by destruct (b - a).
Qed.

Lemma substring_0 (s : jsstring) (n : nat) : substring s 0 n = take n s.
Proof. rewrite substring_take_drop by lia. by rewrite Nat.sub_0_r. Qed.

Lemma substringFrom_drop (s : jsstring) (n : nat) : substringFrom s n = drop n s.
Proof.
  unfold substringFrom.
  destruct (decide (n <= length s)) as [Hn|Hn].
  - rewrite substring_take_drop by done.
    apply take_ge. rewrite length_drop. lia.
  - unfold substring. cbv zeta.
    replace (Nat.min n (length s)) with (length s) by lia.
    rewrite !Nat.min_id, Nat.max_id, Nat.sub_diag.
    rewrite !drop_ge by lia. done.
Qed.

Lemma substring_length (s : jsstring) (a b : nat) :
  a <= b -> b <= length s -> length (substring s a b) = b - a.
Proof.
  intros Hab Hb. rewrite substring_take_drop by done.
  rewrite length_take, length_drop. lia.
Qed.

(** ** exec and the match loop *)

Lemma scanFrom_spec (R : RegExp) (text : jsstring) (n i idx e : nat) :
  scanFrom R text n i = Some (idx, e) ->
  i <= idx < i + n
  /\ matchRe (ignoreCase R) text (source R) idx Some = Some e.
Proof.
  revert i. induction n as [|n IH]; simpl; intros i Hs; [discriminate|].
  destruct (matchRe _ _ _ i Some) as [e'|] eqn:Hm.
  - inversion Hs; subst. split; [lia|done].
  - apply IH in Hs. destruct Hs as [Hi Hm']. split; [lia|done].
Qed.

(** A successful [exec] from [lastIndex]: the match starts at or after
    [lastIndex], lies inside the input, is a match of the pattern and is as
    long as the pattern requires. *)
Lemma RegExpBuiltinExec_spec (R : RegExp) (text : jsstring) (lastIndex idx e : nat) :
  wfRegex (source R) = true ->
  RegExpBuiltinExec R text lastIndex = Some (idx, e) ->
  lastIndex <= idx /\ idx + minLen (source R) <= e /\ e <= length text
  /\ Lang (ignoreCase R) text (source R) idx e.
Proof.
  intros Hwf Hex. unfold RegExpBuiltinExec in Hex.
  apply scanFrom_spec in Hex as [Hidx Hm].
  apply matchRe_sound in Hm as (y & HL & Hy); [|done].
  inversion Hy; subst y.
  pose proof (Lang_minLen _ _ _ _ _ HL).
  pose proof (Lang_upper _ _ _ _ _ HL).
  repeat split; auto; lia.
Qed.

Lemma execLoop_spec (ty : jsstring) (R : RegExp) (text : jsstring) :
  wfRegex (source R) = true -> 0 < minLen (source R) ->
  forall fuel lastIndex es,
    execLoop fuel ty R text lastIndex = Some es ->
    Forall (fun e => validEntity text e /\ type e = ty
                     /\ Lang (ignoreCase R) text (source R) (start e) (end_ e)) es.
Proof.
  intros Hwf Hmin fuel.
  induction fuel as [|fuel IH]; simpl; intros lastIndex es Hrun; [discriminate|].
  destruct (RegExpBuiltinExec R text lastIndex) as [[idx e]|] eqn:Hex.
  - destruct (execLoop fuel ty R text e) as [rest|] eqn:Hrest; [|discriminate].
    simpl in Hrun. inversion Hrun; subst es; clear Hrun.
    apply RegExpBuiltinExec_spec in Hex as (Hidx & Hlen & He & HL); [|done].
    constructor; [|by eapply IH].
    unfold validEntity; simpl.
    rewrite substring_length by lia.
    replace (idx + (e - idx)) with e by lia.
    repeat split; auto; lia.
  - inversion Hrun. constructor.
Qed.

(** The loop ends: every match is non-empty, so [lastIndex] grows. *)
Lemma execLoop_total (ty : jsstring) (R : RegExp) (text : jsstring) :
  wfRegex (source R) = true -> 0 < minLen (source R) ->
  forall fuel lastIndex,
    0 < fuel -> S (S (length text)) <= fuel + lastIndex ->
    is_Some (execLoop fuel ty R text lastIndex).
Proof.
  intros Hwf Hmin fuel.
  induction fuel as [|fuel IH]; simpl; intros lastIndex Hpos Hfuel; [lia|].
  destruct (RegExpBuiltinExec R text lastIndex) as [[idx e]|] eqn:Hex; [|eauto].
  apply RegExpBuiltinExec_spec in Hex as (Hidx & Hlen & He & HL); [|done].
  destruct (IH e) as [rest Hrest]; [lia|lia|].
  rewrite Hrest. simpl. eauto.
Qed.

Lemma PATTERNS_wf :
  Forall (fun p => wfRegex (source p.2) = true /\ 0 < minLen (source p.2)) PATTERNS.
Proof. repeat constructor. Qed.

(** ** The sort *)

Lemma insertEntity_Permutation (a : DetectedEntity) (l : list DetectedEntity) :
  insertEntity a l ≡ₚ a :: l.
Proof.
  induction l as [|b l IH]; simpl; [done|].
  destruct (start b <=? start a); [done|].
  rewrite IH. apply Permutation_swap.
Qed.

Lemma sortEntities_Permutation (l : list DetectedEntity) : sortEntities l ≡ₚ l.
Proof.
  induction l as [|a l IH]; simpl; [done|].
  rewrite insertEntity_Permutation. by rewrite IH.
Qed.

Lemma descendingStart_cons (a : DetectedEntity) (l : list DetectedEntity) :
  descendingStart (a :: l) <->
  Forall (fun b => start b <= start a) l /\ descendingStart l.
Proof.
  revert a. induction l as [|b l IH]; intros a.
  - simpl. split; auto.
  - change (descendingStart (a :: b :: l))
      with (start b <= start a /\ descendingStart (b :: l)).
    rewrite (IH b). split.
    + intros (Hba & Hall & Hd). repeat split; auto.
      constructor; auto.
      eapply List.Forall_impl; [|exact Hall]. simpl. intros; lia.
    + intros (Hall & Hall' & Hd). inversion Hall; subst. auto.
Qed.

Lemma insertEntity_descending (a : DetectedEntity) (l : list DetectedEntity) :
  descendingStart l -> descendingStart (insertEntity a l).
Proof.
  induction l as [|b l IH]; intros Hd; [simpl; auto|].
  simpl. destruct (start b <=? start a) eqn:Hcmp.
  - apply Nat.leb_le in Hcmp. split; auto.
  - apply Nat.leb_gt in Hcmp.
    apply descendingStart_cons in Hd as [Hall Hd].
    apply descendingStart_cons. split; [|auto].
    rewrite insertEntity_Permutation. constructor; [lia|done].
Qed.

(** [descendingStart] read on consecutive positions. *)
Lemma descendingStart_lookup (l : list DetectedEntity) :
  descendingStart l <->
  forall i a b, l !! i = Some a -> l !! S i = Some b -> start b <= start a.
Proof.
  induction l as [|x l IH].
  - simpl. split; [|done]. intros _ i a b Ha. by rewrite lookup_nil in Ha.
  - destruct l as [|y l].
    + simpl. split; [|done]. intros _ i a b _ Hb.
      destruct i; simpl in Hb; by rewrite ?lookup_nil in Hb.
    + change (descendingStart (x :: y :: l))
        with (start y <= start x /\ descendingStart (y :: l)).
      rewrite IH. split.
      * intros [Hxy Hrest] [|i] a b Ha Hb; simpl in *.
        -- by inversion Ha; inversion Hb; subst.
        -- by eapply Hrest.
      * intros Hall. split.
        -- by apply (Hall 0 x y).
        -- intros i a b Ha Hb. by apply (Hall (S i) a b).
Qed.

Lemma sortEntities_descending (l : list DetectedEntity) :
  descendingStart (sortEntities l).
Proof.
  induction l as [|a l IH]; simpl; [auto|].
  by apply insertEntity_descending.
Qed.

(** ** detectEntities *)

Lemma detectEntities_total (text : jsstring) : is_Some (detectEntities text).
Proof.
  unfold detectEntities.
  assert (Hall : is_Some (mapM (fun '(ty, pattern) =>
            execLoop (S (S (length text))) ty pattern text 0) PATTERNS)).
  { apply mapM_is_Some. eapply List.Forall_impl; [|exact PATTERNS_wf].
    intros [ty R] [Hwf Hmin]. unfold compose.
    apply execLoop_total; auto; lia. }
  destruct Hall as [found ->]. simpl. eauto.
Qed.

Lemma detectEntities_spec (text : jsstring) (es : list DetectedEntity) :
  detectEntities text = Some es ->
  descendingStart es
  /\ Forall (fun e => validEntity text e /\ fromPattern text e) es.
Proof.
  unfold detectEntities. intros Hd.
  destruct (mapM _ PATTERNS) as [found|] eqn:Hfound; [|discriminate].
  simpl in Hd. inversion Hd; subst es; clear Hd.
  split; [apply sortEntities_descending|].
  rewrite sortEntities_Permutation.
  apply mapM_Some in Hfound.
  assert (Hin : Forall (fun p => p ∈ PATTERNS) PATTERNS)
    by (apply List.Forall_forall; intros p Hp; by apply list_elem_of_In).
  pose proof PATTERNS_wf as Hwf.
  revert Hfound Hin Hwf. generalize PATTERNS at 1 3 4.
  intros pats Hfound. induction Hfound as [|[ty R] es pats found Hrun _ IH];
    intros Hin Hwf; simpl; [constructor|].
  inversion Hin; subst. inversion Hwf as [|? ? [HwfR HminR] Hwf']; subst.
  apply Forall_app. split; [|by apply IH].
  eapply List.Forall_impl; [|exact (execLoop_spec _ _ _ HwfR HminR _ _ _ Hrun)].
  intros e (Hv & Hty & HL). split; [done|].
  exists R. rewrite Hty. auto.
Qed.

(** The detector on a sentence with a name and an e-mail address. *)
Example detectEntities_name_and_email :
  detectEntities (js "Mario Rossi ha scritto a mario.rossi@example.com")
  = Some [ {| type := EMAIL_ADDRESS; value := js "mario.rossi@example.com";
              start := 25; end_ := 48 |};
           {| type := PERSON; value := js "Mario Rossi";
              start := 0; end_ := 11 |} ].
Proof. vm_compute. reflexivity. Qed.

(** Matches of two categories may overlap: a card number whose first ten
    digits read as a phone number. *)
Example detectEntities_overlap :
  option_map (List.map (fun e => (type e, start e, end_ e)))
             (detectEntities (js "x 3331234567890123 tail"))
  = Some [(PHONE_NUMBER, 2, 12); (CREDIT_CARD, 2, 18)].
Proof. vm_compute. reflexivity. Qed.

(** ** The six maps *)

Ltac distinct_types :=
  match goal with
  | H : @eq (list N) ?a ?b |- _ =>
      solve [vm_compute in H; discriminate H]
  | H : ?a <> ?a |- _ => solve [destruct H; reflexivity]
  end.

Lemma getMap_defined (em : EntityMaps) (ty : jsstring) :
  is_Some (getMap em ty) <-> ty ∈ ENTITY_TYPES.
Proof.
  unfold getMap, ENTITY_TYPES. rewrite !elem_of_cons, elem_of_nil.
  repeat case_decide; split; intros Hx; eauto 10.
  - destruct Hx as [? Hx]. discriminate.
  - exfalso. tauto.
Qed.

Lemma getMap_None (em : EntityMaps) (ty : jsstring) :
  getMap em ty = None <-> isEntityType ty = false.
Proof.
  unfold isEntityType. rewrite bool_decide_eq_false, <- (getMap_defined em).
  rewrite eq_None_not_Some. done.
Qed.

Lemma getMap_updMap (em : EntityMaps) (ty ty' : jsstring) (f : StringMap -> StringMap) :
  getMap (updMap em ty f) ty'
  = if decide (ty = ty') then f <$> getMap em ty' else getMap em ty'.
Proof.
  destruct em. unfold getMap, updMap.
  destruct (decide (ty = ty')) as [->|Hne].
  - repeat case_decide; try done; distinct_types.
  - repeat case_decide; subst; try done; try distinct_types.
Qed.

Lemma updMap_id (em : EntityMaps) (ty : jsstring) (f : StringMap -> StringMap) :
  (forall m, getMap em ty = Some m -> f m = m) -> updMap em ty f = em.
Proof.
  destruct em. unfold getMap, updMap. intros Hf.
  repeat case_decide; subst; try distinct_types; f_equal; auto.
Qed.

Lemma getMap_emptyMaps (ty : jsstring) (m : StringMap) :
  getMap emptyMaps ty = Some m -> m = ∅.
Proof.
  unfold getMap, emptyMaps. repeat case_decide; simpl; congruence.
Qed.

Section FakerFacts.
Context `{FakerLib}.

(** ** getFakeValue *)

(** What one call does: a stored value is returned as it is, with the
    session untouched; a new one is generated once, stored and returned. *)
Lemma getFakeValue_unfold (ty v : jsstring) (st : Session) :
  getFakeValue ty v st =
  match getMap (entityMaps st) ty with
  | None => ThrowsTypeError
  | Some map =>
    match map !! v with
    | Some f => Returns (f, st)
    | None =>
      let (f, r') := generateFakeValue ty (fakerState st) in
      Returns (f, {| entityMaps := updMap (entityMaps st) ty (insert v f);
                     fakerState := r' |})
    end
  end.
Proof.
  unfold getFakeValue.
  destruct (getMap (entityMaps st) ty) as [map|] eqn:Hmap; [|done].
  destruct (map !! v) as [f|] eqn:Hv.
  - rewrite bool_decide_eq_true_2 by eauto.
    unfold bind, ret. rewrite Hmap, Hv. done.
  - rewrite bool_decide_eq_false_2 by (intros [? ?]; congruence).
    unfold bind, liftGen, mapSet.
    destruct (generateFakeValue ty (fakerState st)) as [f r'].
    simpl. rewrite getMap_updMap, decide_True by done.
    rewrite Hmap. simpl. by rewrite lookup_insert_eq.
Qed.

(** For the six entity types the call returns. *)
Lemma getFakeValue_returns (ty v : jsstring) (st : Session) :
  ty ∈ ENTITY_TYPES ->
  exists f st', getFakeValue ty v st = Returns (f, st').
Proof.
  intros Hty. rewrite getFakeValue_unfold.
  apply (getMap_defined (entityMaps st)) in Hty as [map ->].
  destruct (map !! v); [eauto|].
  destruct (generateFakeValue ty (fakerState st)). eauto.
Qed.

(** After a call the value is in the map of its type. *)
Lemma getFakeValue_stored (ty v f : jsstring) (st st1 : Session) :
  getFakeValue ty v st = Returns (f, st1) ->
  exists map, getMap (entityMaps st1) ty = Some map /\ map !! v = Some f.
Proof.
  rewrite getFakeValue_unfold.
  destruct (getMap (entityMaps st) ty) as [map|] eqn:Hmap; [|done].
  destruct (map !! v) as [f0|] eqn:Hv.
  - intros [= <- <-]. eauto.
  - destruct (generateFakeValue ty (fakerState st)) as [f0 r'].
    intros [= <- <-]. simpl.
    rewrite getMap_updMap, decide_True, Hmap by done. simpl.
    eexists. split; [done|]. by rewrite lookup_insert_eq.
Qed.

Lemma getFakeValue_storedValue (ty v f : jsstring) (st st1 : Session) :
  getFakeValue ty v st = Returns (f, st1) -> storedValue st1 ty v = Some f.
Proof.
  intros Hcall.
  destruct (getFakeValue_stored _ _ _ _ _ Hcall) as (map & Hmap & Hv).
  unfold storedValue. by rewrite Hmap.
Qed.

(** A call never changes a value that is already stored. *)
Lemma getFakeValue_keeps (ty v f : jsstring) (st st1 : Session)
    (ty' v' f' : jsstring) :
  getFakeValue ty v st = Returns (f, st1) ->
  storedValue st ty' v' = Some f' ->
  storedValue st1 ty' v' = Some f'.
Proof.
  rewrite getFakeValue_unfold. unfold storedValue.
  destruct (getMap (entityMaps st) ty) as [map|] eqn:Hmap; [|done].
  destruct (map !! v) as [f0|] eqn:Hv.
  - by intros [= <- <-].
  - destruct (generateFakeValue ty (fakerState st)) as [f0 r'].
    intros [= <- <-] Hold. simpl.
    rewrite getMap_updMap. destruct (decide (ty = ty')) as [<-|Hne]; [|done].
    rewrite Hmap in Hold |- *. simpl in *.
    rewrite lookup_insert_ne; [done|]. congruence.
Qed.

End FakerFacts.

(** ** anonymizeText *)

Lemma PATTERNS_keys (ty : jsstring) (R : RegExp) :
  (ty, R) ∈ PATTERNS -> ty ∈ ENTITY_TYPES.
Proof.
  unfold PATTERNS, ENTITY_TYPES. rewrite !elem_of_cons, elem_of_nil.
  intros Hin. repeat destruct Hin as [Hin|Hin]; try done;
    inversion Hin; subst; tauto.
Qed.

Lemma fromPattern_type (text : jsstring) (e : DetectedEntity) :
  fromPattern text e -> type e ∈ ENTITY_TYPES.
Proof. intros (R & Hin & _). by eapply PATTERNS_keys. Qed.

Section EngineFacts.
Context `{FakerLib}.

Lemma replaceLoop_returns (es : list DetectedEntity) :
  Forall (fun e => type e ∈ ENTITY_TYPES) es ->
  forall result st, exists out st', replaceLoop es result st = Returns (out, st').
Proof.
  induction 1 as [|e es Hty _ IH]; intros result st; simpl.
  - unfold ret. eauto.
  - unfold bind.
    destruct (getFakeValue_returns (type e) (value e) st Hty) as (f & st1 & ->).
    apply IH.
Qed.

(** The whole-text path returns for every input and session. *)
Lemma anonymizeText_returns (text : jsstring) (st : Session) :
  exists out st', anonymizeText text st = Returns (out, st').
Proof.
  unfold anonymizeText.
  destruct (detectEntities text) as [es|] eqn:Hes.
  - apply replaceLoop_returns.
    apply detectEntities_spec in Hes as [_ Hall].
    eapply List.Forall_impl; [|exact Hall].
    intros e [_ He]. by eapply fromPattern_type.
  - pose proof (detectEntities_total text) as [? ?]. congruence.
Qed.

(** ** Chunking *)

Lemma chunkLoop_past_end (fuel size : nat) (text : jsstring) (i : nat) :
  length text <= i -> chunkLoop fuel size text i = [].
Proof.
  intros Hi. destruct fuel; simpl; [done|].
  destruct (i <? length text) eqn:Hlt; [|done].
  apply Nat.ltb_lt in Hlt. lia.
Qed.

Lemma chunkLoop_concat (size : nat) (text : jsstring) :
  0 < size ->
  forall fuel i, length text - i <= fuel ->
    concat (chunkLoop fuel size text i) = drop i text.
Proof.
  intros Hsize fuel. induction fuel as [|fuel IH]; intros i Hfuel; simpl.
  - rewrite drop_ge by lia. done.
  - destruct (i <? length text) eqn:Hlt.
    + apply Nat.ltb_lt in Hlt. simpl.
      rewrite IH by lia.
      rewrite substring_take_drop by lia.
      replace (i + size - i) with size by lia.
      rewrite <- (take_drop size (drop i text)) at 2.
      rewrite drop_drop. done.
    + apply Nat.ltb_ge in Hlt. rewrite drop_ge by lia. done.
Qed.

Lemma chunkLoop_sizes (size : nat) (text : jsstring) :
  0 < size ->
  forall fuel i, length text - i <= fuel ->
    fixedSizeChunks size (chunkLoop fuel size text i).
Proof.
  intros Hsize fuel. induction fuel as [|fuel IH]; intros i Hfuel.
  - simpl. done.
  - cbn [chunkLoop]. destruct (i <? length text) eqn:Hlt; [|simpl; done].
    apply Nat.ltb_lt in Hlt.
    assert (Hlen : length (substring text i (i + size))
                   = Nat.min size (length text - i)).
    { rewrite substring_take_drop by lia.
      rewrite length_take, length_drop. f_equal. lia. }
    destruct (decide (length text <= i + size)) as [Hlast|Hmore].
    + rewrite (chunkLoop_past_end fuel) by done.
      simpl. rewrite Hlen. lia.
    + specialize (IH (i + size)).
      destruct (chunkLoop fuel size text (i + size)) as [|c rest] eqn:Hrest.
      * destruct fuel; simpl in Hrest; [lia|].
        destruct (i + size <? length text) eqn:Hlt'; [discriminate|].
        apply Nat.ltb_ge in Hlt'. lia.
      * change (length (substring text i (i + size)) = size
                /\ fixedSizeChunks size (c :: rest)).
        split; [rewrite Hlen; lia|apply IH; lia].
Qed.

Lemma forEachChunk_runs (chunks : list jsstring) (st : Session) :
  exists outs st', runChunks chunks st outs st'
    /\ forEachChunk chunks st = Returns (outs, st').
Proof.
  revert st. induction chunks as [|chunk rest IH]; intros st; simpl.
  - exists [], st. split; [constructor|done].
  - destruct (anonymizeText_returns chunk st) as (a & st1 & Ha).
    destruct (IH st1) as (outs & st2 & Hrun & Hrest).
    exists (a :: outs), st2. split; [by econstructor|].
    unfold bind. rewrite Ha, Hrest. done.
Qed.

End EngineFacts.

(** ** Replacement over disjoint spans *)

Lemma interleave_snoc (ps rs : list jsstring) (q f : jsstring) :
  length ps = S (length rs) ->
  interleave (ps ++ [q]) (rs ++ [f]) = interleave ps rs ++ f ++ q.
Proof.
  revert rs. induction ps as [|p ps IH]; intros rs Hlen; [simpl in Hlen; lia|].
  destruct rs as [|r rs]; simpl in *.
  - destruct ps; [|simpl in Hlen; lia]. done.
  - rewrite IH by lia. by rewrite <- ?app_assoc.
Qed.

Lemma outside_length (text : jsstring) (spans : list (nat * nat)) :
  forall pos, length (outside text pos spans) = S (length spans).
Proof.
  induction spans as [|[s e] spans IH]; intros pos; simpl; [done|].
  by rewrite IH.
Qed.

Lemma take_drop_take (text : jsstring) (pos n b : nat) :
  pos + n <= b -> take n (drop pos (take b text)) = take n (drop pos text).
Proof.
  intros Hb. rewrite !take_drop_commute, take_take.
  by replace (Nat.min (pos + n) b) with (pos + n) by lia.
Qed.

Lemma drop_take_slice (text : jsstring) (a b : nat) :
  drop a (take b text) = take (b - a) (drop a text).
Proof.
  destruct (decide (a <= b)) as [Hab|Hab].
  - rewrite take_drop_commute. by replace (a + (b - a)) with b by lia.
  - replace (b - a) with 0 by lia. simpl.
    apply drop_ge. rewrite length_take. lia.
Qed.

Lemma outside_snoc (text : jsstring) (s e b : nat) (spans : list (nat * nat)) :
  s <= e -> e <= b ->
  Forall (fun sp => sp.1 <= s /\ sp.2 <= s) spans ->
  forall pos, pos <= s ->
    outside (take b text) pos (spans ++ [(s, e)])
    = outside (take s text) pos spans ++ [take (b - e) (drop e text)].
Proof.
  intros Hse Heb Hall. induction Hall as [|[s' e'] spans [Hs' He'] _ IH];
    intros pos Hpos; simpl in *.
  - replace (Nat.max pos e) with e by lia.
    rewrite !drop_take_slice.
    rewrite take_take. by replace (Nat.min (s - pos) (b - pos)) with (s - pos) by lia.
  - rewrite IH by lia. f_equal.
    destruct (decide (s' <= pos)) as [Hle|Hgt].
    + by replace (s' - pos) with 0 by lia.
    + rewrite !take_drop_take by lia. done.
Qed.

Lemma disjointBelow_mono (es : list DetectedEntity) (b b' : nat) :
  disjointBelow b es -> b <= b' -> disjointBelow b' es.
Proof.
  destruct es as [|e es]; simpl; [done|].
  intros (H1 & H2 & H3) Hb. repeat split; auto; lia.
Qed.

Lemma disjointBelow_spans (es : list DetectedEntity) :
  forall b, disjointBelow b es ->
    Forall (fun sp => sp.1 <= b /\ sp.2 <= b) (spanOf <$> reverse es).
Proof.
  induction es as [|e es IH]; intros b Hd; simpl in *.
  - constructor.
  - destruct Hd as (Hse & Heb & Hd).
    rewrite reverse_cons, fmap_app. apply Forall_app. split.
    + eapply List.Forall_impl; [|exact (IH _ Hd)]. simpl. intros; lia.
    + repeat constructor; simpl; lia.
Qed.

Lemma nonOverlapping_disjointBelow (text : jsstring) (es : list DetectedEntity) :
  Forall (validEntity text) es -> nonOverlapping es ->
  disjointBelow (length text) es.
Proof.
  intros Hvalid Hno.
  assert (Hgen : forall b,
            match es with e :: _ => end_ e <= b | [] => True end ->
            disjointBelow b es).
  { induction Hvalid as [|e es (_ & Hlt & Hlen & _) Hvalid IH]; intros b Hb.
    - done.
    - simpl. repeat split; [lia|done|].
      destruct es as [|e2 es]; [done|].
      destruct Hno as [H12 Hno]. apply IH; auto. }
  apply Hgen. destruct Hvalid as [|e es (_ & _ & Hlen & _) _]; done.
Qed.

Section DisjointSpans.
Context `{FakerLib}.

Lemma replaceLoop_keeps (es : list DetectedEntity) (ty v f : jsstring) :
  forall result st out st',
    replaceLoop es result st = Returns (out, st') ->
    storedValue st ty v = Some f ->
    storedValue st' ty v = Some f.
Proof.
  induction es as [|e es IH]; intros result st out st'; simpl.
  - unfold ret. by intros [= _ <-].
  - unfold bind.
    destruct (getFakeValue (type e) (value e) st) as [[f0 st1]| |] eqn:Hcall;
      [|done|done].
    intros Hrun Hold. eapply IH; [exact Hrun|].
    by eapply getFakeValue_keeps.
Qed.

Lemma replaceLoop_disjoint (text : jsstring) (es : list DetectedEntity) :
  Forall (fun e => type e ∈ ENTITY_TYPES) es ->
  forall b R st,
    disjointBelow b es -> b <= length text ->
    exists reps st',
      Forall2 (fun e r => storedValue st' (type e) (value e) = Some r)
              (reverse es) reps
      /\ replaceLoop es (take b text ++ R) st
         = Returns (interleave (outside (take b text) 0 (spanOf <$> reverse es)) reps
                      ++ R, st').
Proof.
  induction 1 as [|e es Hty _ IH]; intros b R st Hd Hb.
  - exists [], st. split; [constructor|]. simpl. unfold ret. done.
  - destruct Hd as (Hse & Heb & Hd). cbn [replaceLoop]. unfold bind.
    destruct (getFakeValue_returns (type e) (value e) st Hty) as (f & st1 & Hcall).
    rewrite Hcall.
    rewrite substring_0, substringFrom_drop.
    rewrite take_app_le by (rewrite length_take; lia).
    rewrite drop_app_le by (rewrite length_take; lia).
    rewrite take_take. replace (Nat.min (start e) b) with (start e) by lia.
    rewrite <- ?app_assoc.
    destruct (IH (start e) (f ++ drop (end_ e) (take b text) ++ R) st1 Hd)
      as (reps & st' & Hreps & Hrun); [lia|].
    exists (reps ++ [f]), st'. split.
    + rewrite reverse_cons. apply Forall2_app; [done|].
      constructor; [|constructor].
      eapply replaceLoop_keeps; [exact Hrun|].
      by eapply getFakeValue_storedValue.
    + rewrite Hrun. do 2 f_equal.
      rewrite reverse_cons, fmap_app. simpl.
      change [spanOf e] with [(start e, end_ e)].
      rewrite outside_snoc; [|done|done| |lia].
      * rewrite interleave_snoc.
        -- rewrite <- ?app_assoc. by rewrite drop_take_slice.
        -- rewrite outside_length, length_fmap.
           apply Forall2_length in Hreps. lia.
      * by apply disjointBelow_spans.
Qed.

(** Where the detected spans do not overlap, the output is the input with
    each span replaced, by the value stored for its entity, and everything
    else in place. *)
Lemma anonymizeText_disjoint_preserved (text : jsstring) (st : Session)
    (es : list DetectedEntity) :
  detectEntities text = Some es -> nonOverlapping es ->
  exists out st' reps,
    anonymizeText text st = Returns (out, st')
    /\ Forall2 (fun e r => storedValue st' (type e) (value e) = Some r)
               (reverse es) reps
    /\ out = interleave (outside text 0 (spanOf <$> reverse es)) reps
    /\ structurePreserved text es out.
Proof.
  intros Hes Hno. unfold anonymizeText. rewrite Hes.
  apply detectEntities_spec in Hes as [_ Hall].
  assert (Hvalid : Forall (validEntity text) es).
  { eapply List.Forall_impl; [|exact Hall]. by intros e [Hv _]. }
  assert (Htypes : Forall (fun e => type e ∈ ENTITY_TYPES) es).
  { eapply List.Forall_impl; [|exact Hall].
    intros e [_ He]. by eapply fromPattern_type. }
  destruct (replaceLoop_disjoint text es Htypes (length text) [] st)
    as (reps & st' & Hreps & Hrun).
  { by eapply nonOverlapping_disjointBelow. }
  { done. }
  rewrite take_ge, app_nil_r in Hrun by done.
  rewrite app_nil_r in Hrun.
  eexists _, st', reps. split; [exact Hrun|].
  split; [exact Hreps|]. split; [done|].
  exists reps. split; [|done].
  apply Forall2_length in Hreps. rewrite length_reverse in Hreps. lia.
Qed.

End DisjointSpans.

(** The lemma at work: a name and an e-mail address that do not overlap. *)
Example anonymizeText_name_and_email :
  let text := js "Mario Rossi ha scritto a mario.rossi@example.com" in
  exists out st' person email,
    anonymizeText text freshSession = Returns (out, st')
    /\ storedValue st' PERSON (js "Mario Rossi") = Some person
    /\ storedValue st' EMAIL_ADDRESS (js "mario.rossi@example.com") = Some email
    /\ out = person ++ js " ha scritto a " ++ email.
Proof.
  intros text.
  destruct (anonymizeText_disjoint_preserved text freshSession _
              detectEntities_name_and_email)
    as (out & st' & reps & Hrun & Hreps & Hout & _).
  { simpl. lia. }
  change (reverse _) with
    [ {| type := PERSON; value := js "Mario Rossi"; start := 0; end_ := 11 |};
      {| type := EMAIL_ADDRESS; value := js "mario.rossi@example.com";
         start := 25; end_ := 48 |} ] in Hreps, Hout.
  apply Forall2_cons_inv_l in Hreps as (person & reps' & Hperson & Hreps & ->).
  apply Forall2_cons_inv_l in Hreps as (email & reps'' & Hemail & Hreps & ->).
  apply Forall2_nil_inv_l in Hreps as ->.
  exists out, st', person, email.
  split; [exact Hrun|]. split; [exact Hperson|]. split; [exact Hemail|].
  rewrite Hout. cbn [fmap list_fmap spanOf start end_ outside interleave].
  change (take (0 - 0) (drop 0 text)) with (@nil N).
  change (take (25 - Nat.max 0 11) (drop (Nat.max 0 11) text))
    with (js " ha scritto a ").
  change (drop (Nat.max (Nat.max 0 11) 48) text) with (@nil N).
  by rewrite app_nil_r.
Qed.

(** ** The name pattern *)

Lemma charSetMatches_members (atoms : list ClassAtom) (ch : N) :
  charSetMatches false atoms ch = true -> ch ∈ flat_map atomMembers atoms.
Proof.
  unfold charSetMatches. intros Hex.
  apply existsb_exists in Hex as (a & Hin & Heq).
  apply N.eqb_eq in Heq. simpl in Heq. subst a.
  by apply list_elem_of_In.
Qed.

Lemma elem_of_N_range (lo hi c : N) :
  c ∈ N_range lo hi -> (lo <= c <= hi)%N.
Proof.
  unfold N_range. intros Hin.
  apply list_elem_of_In, in_map_iff in Hin as (k & <- & Hk).
  apply in_seq in Hk. lia.
Qed.

Lemma upper_class (ch : N) :
  charSetMatches false [range "A" "Z"] ch = true -> isUpperAZ ch.
Proof.
  intros Hm. apply charSetMatches_members in Hm.
  change (ch ∈ N_range 65 90 ++ []) in Hm. rewrite app_nil_r in Hm.
  by apply elem_of_N_range in Hm.
Qed.

Lemma lowerAccented_class (ch : N) :
  charSetMatches false
    [range "a" "z"; ClassChar 224; ClassChar 232; ClassChar 233;
     ClassChar 236; ClassChar 242; ClassChar 249]%N ch = true ->
  isLowerOrAccented ch.
Proof.
  intros Hm. apply charSetMatches_members in Hm.
  change (ch ∈ N_range 97 122 ++ [224; 232; 233; 236; 242; 249]%N) in Hm.
  apply elem_of_app in Hm as [Hm|Hm].
  - left. by apply elem_of_N_range in Hm.
  - by right.
Qed.

Lemma whiteSpace_class (ch : N) :
  charSetMatches false [ClassEscape_s] ch = true -> isWhiteSpace ch.
Proof.
  intros Hm. apply charSetMatches_members in Hm.
  change (ch ∈ WhiteSpace ++ []) in Hm. by rewrite app_nil_r in Hm.
Qed.

Section Slices.
Variable text : jsstring.

Local Abbreviation slice := (slice text).

Lemma slice_app (x m y : nat) :
  x <= m -> m <= y -> slice x y = slice x m ++ slice m y.
Proof using Type.
  intros Hxm Hmy. unfold slice.
  replace (y - x) with ((m - x) + (y - m)) by lia.
  rewrite <- take_take_drop, drop_drop.
  by replace (x + (m - x)) with m by lia.
Qed.

Lemma slice_one (x : nat) (ch : N) :
  text !! x = Some ch -> slice x (S x) = [ch].
Proof using Type.
  intros Hx. unfold slice. replace (S x - x) with 1 by lia.
  apply take_drop_middle in Hx.
  rewrite <- Hx at 1.
  rewrite drop_app_length'; [done|].
  rewrite length_take. apply (f_equal length) in Hx.
  rewrite length_app in Hx. simpl in Hx. rewrite length_take in Hx. lia.
Qed.

(** A run of one class: as many code units as iterations, all in the class. *)
Lemma Iter_class (atoms : list ClassAtom) (n x y : nat) :
  Iter (Lang false text (CharacterClass atoms)) n x y ->
  x <= y /\ length (slice x y) = n
  /\ Forall (fun ch => charSetMatches false atoms ch = true) (slice x y).
Proof using Type.
  revert x. induction n as [|n IH]; simpl; intros x Hit.
  - subst y. unfold slice. rewrite Nat.sub_diag. simpl. auto.
  - destruct Hit as (m & (ch & Hch & Hcs & ->) & Hit).
    apply IH in Hit as (Hle & Hlen & Hall).
    rewrite (slice_app x (S x) y) by lia.
    rewrite (slice_one _ _ Hch). simpl.
    repeat split; [lia|by rewrite Hlen|by constructor].
Qed.

Lemma Lang_capitalizedWord (x y : nat) :
  Lang false text capitalizedWord x y ->
  x <= y /\ capitalizedWordShape (slice x y).
Proof using Type.
  cbn [capitalizedWord seqs Lang upper lowerAccented Plus].
  intros (m & (ch & Hch & Hup & ->) & (n & Hn & _ & Hit)).
  apply Iter_class in Hit as (Hle & Hlen & Hall).
  split; [lia|].
  exists ch, (slice (S x) y). split; [|split; [|split]].
  - rewrite (slice_app x (S x) y) by lia.
    by rewrite (slice_one _ _ Hch).
  - by apply upper_class.
  - intros Hnil. rewrite Hnil in Hlen. simpl in Hlen. lia.
  - eapply List.Forall_impl; [|exact Hall].
    intros c Hc. by apply lowerAccented_class.
Qed.

Lemma Lang_nameGroup (x y : nat) :
  Lang false text nameGroup x y ->
  x <= y /\ exists m, x <= m /\ m <= y
    /\ whiteSpaceRun (slice x m) /\ capitalizedWordShape (slice m y).
Proof using Type.
  unfold nameGroup. cbn [seqs Plus]. cbn [Lang].
  intros (m & (n & Hn & _ & Hit) & Hword).
  apply Iter_class in Hit as (Hle & Hlen & Hall).
  apply Lang_capitalizedWord in Hword as (Hle' & Hshape).
  split; [lia|]. exists m. repeat split; auto.
  - intros Hnil. rewrite Hnil in Hlen. simpl in Hlen. lia.
  - eapply List.Forall_impl; [|exact Hall].
    intros c Hc. by apply whiteSpace_class.
Qed.

Lemma Iter_nameGroup (n x y : nat) :
  Iter (Lang false text nameGroup) n x y ->
  x <= y /\ exists groups : list (jsstring * jsstring),
    length groups = n
    /\ Forall (fun gr => whiteSpaceRun gr.1 /\ capitalizedWordShape gr.2) groups
    /\ slice x y = concat ((fun gr => gr.1 ++ gr.2) <$> groups).
Proof using Type.
  revert x. induction n as [|n IH]; simpl; intros x Hit.
  - subst y. split; [lia|]. exists []. repeat split; [constructor|].
    unfold slice. by rewrite Nat.sub_diag.
  - destruct Hit as (m & Hgroup & Hit).
    apply Lang_nameGroup in Hgroup as (Hxm & k & Hxk & Hkm & Hws & Hword).
    apply IH in Hit as (Hmy & groups & Hlen & Hall & Hslice).
    split; [lia|].
    exists ((slice x k, slice k m) :: groups). repeat split.
    + simpl. by rewrite Hlen.
    + constructor; [split; done|done].
    + rewrite fmap_cons. cbn [concat fst snd].
      rewrite <- Hslice, <- app_assoc.
      rewrite <- (slice_app k m y) by lia.
      by rewrite <- (slice_app x k y) by lia.
Qed.

(** What the name pattern matches is a capitalized word followed by one or
    more groups of white space and a capitalized word. *)
Lemma Lang_PERSON (x y : nat) :
  Lang false text (source PERSON_re) x y ->
  x <= y /\ personShape whiteSpaceRun (slice x y).
Proof using Type.
  change (source PERSON_re)
    with (Seq WordBoundary (Seq capitalizedWord
            (Seq (Quantified 1 None nameGroup) WordBoundary))).
  cbn [Lang].
  intros (m0 & (-> & _) & m1 & Hword & m2 & (n & Hn & _ & Hit) & (-> & _)).
  apply Lang_capitalizedWord in Hword as (Hle1 & Hword).
  apply Iter_nameGroup in Hit as (Hle2 & groups & Hlen & Hall & Hslice).
  split; [lia|].
  exists (slice x m1), groups. repeat split; auto.
  - intros Hnil. rewrite Hnil in Hlen. simpl in Hlen. lia.
  - rewrite <- Hslice. apply slice_app; lia.
Qed.

End Slices.

Lemma PATTERNS_PERSON (R : RegExp) : (PERSON, R) ∈ PATTERNS -> R = PERSON_re.
Proof.
  unfold PATTERNS. rewrite !elem_of_cons, elem_of_nil.
  intros Hin. repeat destruct Hin as [Hin|Hin]; try done;
    apply pair_equal_spec in Hin as [Hty HR];
    first [vm_compute in Hty; discriminate Hty | done].
Qed.

(** Two lists that agree up to the first element outside [P] agree on
    where that element is. *)
Lemma first_outside {A} (P : A -> Prop) (l1 l2 : list A) (x y : A) (r1 r2 : list A) :
  Forall P l1 -> Forall P l2 -> ~ P x -> ~ P y ->
  l1 ++ x :: r1 = l2 ++ y :: r2 ->
  l1 = l2 /\ x = y /\ r1 = r2.
Proof.
  intros H1. revert l2. induction H1 as [|a l1 Ha _ IH]; intros l2 H2 Hx Hy Heq.
  - destruct H2 as [|b l2 Hb _]; simpl in Heq.
    + by inversion Heq.
    + inversion Heq; subst. done.
  - destruct H2 as [|b l2 Hb H2]; simpl in Heq.
    + inversion Heq; subst. done.
    + inversion Heq; subst.
      destruct (IH l2 H2 Hx Hy) as (-> & -> & ->); done.
Qed.

(** * The detector's contract *)

(** C3: for every input the detector returns a sequence ordered by
    descending [start]: of any two consecutive entities the earlier one
    starts at or after the later one. *)
Theorem detectEntities_descending_start (text : jsstring) :
  exists es, detectEntities text = Some es /\ descendingStart es.
Proof.
  destruct (detectEntities_total text) as [es Hes].
  exists es. split; [done|].
  by apply detectEntities_spec in Hes as [Hd _].
Qed.

(** C5: for every input, every entity the detector returns satisfies
    [0 <= start < end <= length text] and its value is the substring
    [text[start:end]]. *)
Theorem detectEntities_entities_valid (text : jsstring) :
  exists es, detectEntities text = Some es /\ Forall (validEntity text) es.
Proof.
  destruct (detectEntities_total text) as [es Hes].
  exists es. split; [done|].
  apply detectEntities_spec in Hes as [_ Hall].
  eapply List.Forall_impl; [|exact Hall]. by intros e [Hv _].
Qed.

(** C9 (amended): every entity of type PERSON the detector returns has a
    value made of two or more capitalized words (an upper-case letter A-Z,
    then one or more letters a-z or accented vowels), each two separated
    by one or more white-space code units. *)
Theorem detectEntities_person_shape (text : jsstring) :
  exists es, detectEntities text = Some es
    /\ Forall (fun e => personShape whiteSpaceRun (value e))
              (filter (fun e => type e = PERSON) es).
Proof.
  destruct (detectEntities_total text) as [es Hes].
  exists es. split; [done|].
  apply detectEntities_spec in Hes as [_ Hall].
  apply list.Forall_forall. intros e Hin.
  apply list_elem_of_filter in Hin as [Hty Hin].
  rewrite list.Forall_forall in Hall.
  destruct (Hall e Hin) as [(_ & Hlt & Hlen & Hval) (R & HR & HL)].
  rewrite Hty in HR. apply PATTERNS_PERSON in HR. subst R.
  apply Lang_PERSON in HL as [_ Hshape].
  rewrite Hval, substring_take_drop by lia. exact Hshape.
Qed.

(** * The pseudonym generator's contract *)

Section GeneratorClaims.
Context `{FakerLib}.

(** C2: for every session, entity type and original value, [getFakeValue]
    returns a value and stores it for the pair, and a second call with the
    same pair returns the same string and leaves the session (the maps and
    the generator) as the first call left it. *)
Theorem getFakeValue_second_call (ty v : jsstring) (st : Session) :
  isEntityType ty = true ->
  exists f st1,
    getFakeValue ty v st = Returns (f, st1)
    /\ storedValue st1 ty v = Some f
    /\ getFakeValue ty v st1 = Returns (f, st1).
Proof.
  intros Hty. apply bool_decide_eq_true in Hty.
  destruct (getFakeValue_returns ty v st Hty) as (f & st1 & Hcall).
  exists f, st1. split; [done|].
  split; [by eapply getFakeValue_storedValue|].
  destruct (getFakeValue_stored _ _ _ _ _ Hcall) as (map & Hmap & Hv).
  rewrite getFakeValue_unfold, Hmap, Hv. done.
Qed.


(** C7: [resetMaps] leaves every one of the six maps empty, so that no
    pair of any type has a stored value, and a later [getFakeValue] is
    decided by the generator alone, whatever the maps held before. *)
Theorem resetMaps_clears (st : Session) (ty v : jsstring) :
  let st0 := {| entityMaps := emptyMaps; fakerState := fakerState st |} in
  resetMaps st = Returns (tt, st0)
  /\ storedValue st0 ty v = None
  /\ getFakeValue ty v st0 =
       if isEntityType ty
       then let (f, r') := generateFakeValue ty (fakerState st) in
            Returns (f, {| entityMaps := updMap emptyMaps ty (insert v f);
                           fakerState := r' |})
       else ThrowsTypeError.
Proof.
  intros st0. split; [|split].
  - destruct st as [[p e n i c k] r]. unfold st0. vm_compute. reflexivity.
  - unfold storedValue. simpl.
    destruct (getMap emptyMaps ty) as [m|] eqn:Hm; [|done].
    apply getMap_emptyMaps in Hm. subst m. simpl. apply lookup_empty.
  - rewrite getFakeValue_unfold. simpl.
    destruct (getMap emptyMaps ty) as [m|] eqn:Hm.
    + assert (Hty : isEntityType ty = true).
      { apply bool_decide_eq_true. apply (getMap_defined emptyMaps). eauto. }
      rewrite Hty. apply getMap_emptyMaps in Hm. subst m.
      rewrite lookup_empty. done.
    + apply getMap_None in Hm. by rewrite Hm.
Qed.

(** * The engine's contract *)

(** C8: on an input in which the detector finds nothing, [anonymizeText]
    returns the input as it is and leaves the session as it was. *)
Theorem anonymizeText_no_entities (text : jsstring) (st : Session) :
  detectEntities text = Some [] ->
  anonymizeText text st = Returns (text, st).
Proof. intros Hes. unfold anonymizeText. rewrite Hes. done. Qed.

(** C10: on an input of at most [CHUNK_SIZE] code units, the empty one
    included, [anonymizeTextChunked] ends as [anonymizeText] does on the
    whole input: same string, same session. *)
Theorem anonymizeTextChunked_single_chunk (text : jsstring) (st : Session) :
  (N.of_nat (length text) <= CHUNK_SIZE)%N ->
  anonymizeTextChunked text st = anonymizeText text st.
Proof.
  intros Hlen. unfold anonymizeTextChunked.
  assert (Hsize : length text <= N.to_nat CHUNK_SIZE) by lia.
  generalize dependent (N.to_nat CHUNK_SIZE). intros size Hsize.
  destruct text as [|c text].
  - simpl. unfold bind, ret. simpl.
    replace (detectEntities []) with (Some (@nil DetectedEntity))
      by (vm_compute; reflexivity).
    done.
  - remember (c :: text) as t eqn:Ht.
    assert (Hpos : 0 < length t) by (subst t; simpl; lia).
    destruct (length t) as [|n] eqn:Hn; [lia|].
    cbn [chunkLoop]. rewrite Hn.
    replace (0 <? S n) with true by (symmetry; apply Nat.ltb_lt; lia).
    rewrite chunkLoop_past_end by (simpl; lia).
    rewrite substring_0, take_ge by (simpl; lia).
    simpl. unfold bind, ret.
    destruct (anonymizeText t st) as [[a st']| |]; [|done|done].
    simpl. by rewrite app_nil_r.
Qed.

(** C4: [anonymizeTextChunked] cuts the input into consecutive chunks of
    exactly [CHUNK_SIZE] code units, the last one possibly shorter, whose
    concatenation is the input; it runs [anonymizeText] on each chunk in
    turn and returns the results concatenated in the same order. *)
Theorem anonymizeTextChunked_chunks (text : jsstring) (st : Session) :
  exists chunks outs st',
    concat chunks = text
    /\ fixedSizeChunks (N.to_nat CHUNK_SIZE) chunks
    /\ runChunks chunks st outs st'
    /\ anonymizeTextChunked text st = Returns (concat outs, st').
Proof.
  unfold anonymizeTextChunked.
  assert (Hsize : 0 < N.to_nat CHUNK_SIZE) by (unfold CHUNK_SIZE; lia).
  generalize dependent (N.to_nat CHUNK_SIZE). intros size Hsize.
  set (chunks := chunkLoop (length text) size text 0).
  destruct (forEachChunk_runs chunks st) as (outs & st' & Hrun & Hall).
  exists chunks, outs, st'. repeat split.
  - unfold chunks. rewrite chunkLoop_concat by lia. done.
  - apply chunkLoop_sizes; lia.
  - done.
  - unfold bind, ret. by rewrite Hall.
Qed.

End GeneratorClaims.

(** * Concrete runs *)

(** C2 on a fresh session with the sample generator. *)
Lemma getFakeValue_second_call_witness :
  isEntityType PERSON = true
  /\ exists f st1,
       getFakeValue PERSON (js "Mario Rossi") freshSession = Returns (f, st1)
       /\ storedValue st1 PERSON (js "Mario Rossi") = Some f
       /\ getFakeValue PERSON (js "Mario Rossi") st1 = Returns (f, st1).
Proof.
  assert (Hty : isEntityType PERSON = true) by (vm_compute; reflexivity).
  split; [exact Hty|].
  exact (getFakeValue_second_call PERSON (js "Mario Rossi") freshSession Hty).
Defined.


(** At that type [getFakeValue] returns no value at all, placeholder or
    other. *)
Lemma getFakeValue_unknown_type_throws :
  isEntityType (js "LOCATION") = false
  /\ ~ exists f st',
        getFakeValue (js "LOCATION") (js "Roma") freshSession = Returns (f, st').
Proof.
  assert (Hty : isEntityType (js "LOCATION") = false) by (vm_compute; reflexivity).
  split; [exact Hty|].
  intros (f & st' & Hcall). rewrite getFakeValue_unfold in Hcall.
  apply (getMap_None (entityMaps freshSession)) in Hty.
  rewrite Hty in Hcall. discriminate Hcall.
Qed.

(** C8 on a sentence without personal data. *)
Lemma anonymizeText_no_entities_witness :
  let text := js "ciao mondo, nessun dato personale in questa frase." in
  detectEntities text = Some []
  /\ anonymizeText text freshSession = Returns (text, freshSession).
Proof.
  intros text.
  assert (Hnone : detectEntities text = Some []) by (vm_compute; reflexivity).
  split; [exact Hnone|].
  exact (anonymizeText_no_entities text freshSession Hnone).
Defined.

(** C10 on an input of one chunk. *)
Lemma anonymizeTextChunked_single_chunk_witness :
  let text := js "Mario Rossi ha scritto a mario.rossi@example.com" in
  (N.of_nat (length text) <= CHUNK_SIZE)%N
  /\ anonymizeTextChunked text freshSession = anonymizeText text freshSession.
Proof.
  intros text.
  assert (Hlen : (N.of_nat (length text) <= CHUNK_SIZE)%N)
    by (vm_compute; discriminate).
  split; [exact Hlen|].
  exact (anonymizeTextChunked_single_chunk text freshSession Hlen).
Defined.

(** C9 as stated fails: two spaces between the words of a detected name. *)
Lemma person_words_not_single_spaced :
  exists e, detectEntities (js "Mario  Rossi") = Some [e]
    /\ type e = PERSON
    /\ value e = js "Mario  Rossi"
    /\ ~ personShape singleSpace (value e).
Proof.
  eexists. split; [vm_compute; reflexivity|].
  split; [reflexivity|]. split; [reflexivity|].
  cbn [value].
  intros (w & groups & (c & cs & -> & Hc & Hne & Hcs) & Hgroups & Hall & Heq).
  destruct groups as [|[sp w'] groups]; [done|].
  inversion Hall as [|? ? [Hsp (c' & cs' & Hw' & Hc' & _)] _]; subst.
  simpl in Hsp, Hw'. unfold singleSpace in Hsp. subst sp w'.
  rewrite fmap_cons in Heq. cbn [concat fst snd] in Heq.
  change (js "Mario  Rossi")
    with (77%N :: [97; 114; 105; 111]%N ++ 32%N :: [32; 82; 111; 115; 115; 105]%N)
    in Heq.
  simpl in Heq. injection Heq as _ Heq.
  assert (Hspace : ~ isLowerOrAccented 32%N).
  { intros [Ha|Ha]; [lia|].
    rewrite !elem_of_cons, elem_of_nil in Ha. intuition discriminate. }
  assert (Hmario : Forall isLowerOrAccented [97; 114; 105; 111]%N).
  { repeat constructor; unfold isLowerOrAccented; lia. }
  symmetry in Heq.
  change (cs ++ 32%N :: c' :: cs' ++ concat ((fun gr => gr.1 ++ gr.2) <$> groups)
          = [97; 114; 105; 111]%N ++ 32%N :: [32; 82; 111; 115; 115; 105]%N) in Heq.
  apply (first_outside isLowerOrAccented) in Heq as (_ & _ & Hrest); try done.
  injection Hrest as -> _. unfold isUpperAZ in Hc'. lia.
Qed.

(** A name ending in an accented vowel is detected without it: [\b] takes
    the vowel for a non-word character. *)
Lemma person_final_accent_dropped :
  detectEntities (js "Mario Niccol" ++ [242%N])
  = Some [ {| type := PERSON; value := js "Mario Niccol";
              start := 0; end_ := 12 |} ].
Proof. vm_compute. reflexivity. Qed.

(** C1 fails on the code where spans of two categories overlap: the e-mail
    address is replaced first, by a shorter value, and the offsets of the
    name, taken on the original text, then reach past the end of the
    shortened text; [", grazie"], which lies outside both spans, is lost. *)
Theorem anonymizeText_overlap_loses_text :
  detectEntities overlapText = Some overlapEntities
  /\ (exists st', anonymizeText overlapText freshSession
                  = Returns (js "Scrivere a Anna Verdi", st'))
  /\ outside overlapText 0 (spanOf <$> reverse overlapEntities)
     = [js "Scrivere a "; []; js ", grazie"]
  /\ ~ structurePreserved overlapText overlapEntities (js "Scrivere a Anna Verdi").
Proof.
  assert (Hpieces : outside overlapText 0 (spanOf <$> reverse overlapEntities)
                    = [js "Scrivere a "; []; js ", grazie"])
    by (vm_compute; reflexivity).
  split; [vm_compute; reflexivity|].
  split; [eexists; vm_compute; reflexivity|].
  split; [exact Hpieces|].
  intros (reps & Hlen & Hout). rewrite Hpieces in Hout.
  destruct reps as [|r1 [|r2 [|r3 reps]]]; simpl in Hlen; try discriminate.
  cbn [interleave] in Hout.
  apply (f_equal list.last) in Hout.
  rewrite !last_app in Hout.
  vm_compute in Hout. discriminate Hout.
Qed.

(** * Further properties *)

(** ** The session between resets *)

Section SessionFacts.
Context `{FakerLib}.

Lemma storedValue_getFakeValue (ty v f : jsstring) (st : Session) :
  storedValue st ty v = Some f -> getFakeValue ty v st = Returns (f, st).
Proof.
  unfold storedValue. rewrite getFakeValue_unfold.
  destruct (getMap (entityMaps st) ty) as [map|]; [|done].
  simpl. by intros ->.
Qed.

Lemma laterSession_keeps (st st' : Session) :
  laterSession st st' -> keepsStored st st'.
Proof.
  induction 1 as [st|ty v f st st1 st2 Hcall _ IH]; intros ty' v' f' Hold.
  - done.
  - apply IH. by eapply getFakeValue_keeps.
Qed.

(** X1: a value resolved once for a pair is the value every later call
    for that pair returns, whatever other pairs were resolved in between,
    as long as the maps are not reset; such a call changes nothing. *)
Theorem getFakeValue_consistent_in_session (ty v f : jsstring)
    (st st1 st2 : Session) :
  getFakeValue ty v st = Returns (f, st1) ->
  laterSession st1 st2 ->
  getFakeValue ty v st2 = Returns (f, st2).
Proof.
  intros Hcall Hlater. apply storedValue_getFakeValue.
  apply (laterSession_keeps _ _ Hlater).
  by eapply getFakeValue_storedValue.
Qed.

(** X2: a call for one pair leaves every other pair as it was: nothing
    else is added, removed or overwritten. *)
Theorem getFakeValue_other_pairs (ty v f : jsstring) (st st1 : Session)
    (ty' v' : jsstring) :
  getFakeValue ty v st = Returns (f, st1) ->
  (ty', v') <> (ty, v) ->
  storedValue st1 ty' v' = storedValue st ty' v'.
Proof.
  rewrite getFakeValue_unfold. unfold storedValue. intros Hcall Hne.
  destruct (getMap (entityMaps st) ty) as [map|] eqn:Hmap; [|done].
  destruct (map !! v) as [f0|] eqn:Hv.
  - by injection Hcall as <- <-.
  - destruct (generateFakeValue ty (fakerState st)) as [f0 r'].
    injection Hcall as <- <-. simpl.
    rewrite getMap_updMap. destruct (decide (ty = ty')) as [<-|Hty]; [|done].
    rewrite Hmap. simpl. apply lookup_insert_ne. congruence.
Qed.

Lemma forEachChunk_keeps (chunks : list jsstring) :
  (forall text st out st',
      anonymizeText text st = Returns (out, st') -> keepsStored st st') ->
  forall st outs st',
    forEachChunk chunks st = Returns (outs, st') -> keepsStored st st'.
Proof.
  intros Hone. induction chunks as [|chunk rest IH]; intros st outs st'; simpl.
  - unfold ret. intros [= _ <-]. by intros ty v f.
  - unfold bind.
    destruct (anonymizeText chunk st) as [[a st1]| |] eqn:Ha; [|done|done].
    destruct (forEachChunk rest st1) as [[outs' st2]| |] eqn:Hrest;
      [|done|done].
    unfold ret. intros [= _ <-] ty v f Hold.
    eapply IH; [exact Hrest|]. eapply Hone; [exact Ha|exact Hold].
Qed.

Lemma anonymizeText_keeps (text : jsstring) (st : Session) (out : jsstring)
    (st' : Session) :
  anonymizeText text st = Returns (out, st') -> keepsStored st st'.
Proof.
  unfold anonymizeText. destruct (detectEntities text) as [es|]; [|done].
  intros Hrun ty v f Hold. by eapply replaceLoop_keeps.
Qed.

(** X3: both paths of the engine return normally on every input, in
    every session (no [TypeError], no endless loop), and only add to
    the session: what was stored before is stored after, unchanged. *)
Theorem anonymize_returns_and_keeps (text : jsstring) (st : Session) :
  (exists out st', anonymizeText text st = Returns (out, st')
                   /\ keepsStored st st')
  /\ (exists out st', anonymizeTextChunked text st = Returns (out, st')
                      /\ keepsStored st st').
Proof.
  split.
  - destruct (anonymizeText_returns text st) as (out & st' & Hrun).
    exists out, st'. split; [done|]. by eapply anonymizeText_keeps.
  - unfold anonymizeTextChunked.
    set (chunks := chunkLoop _ _ _ _).
    destruct (forEachChunk_runs chunks st) as (outs & st' & _ & Hall).
    exists (concat outs), st'. split.
    + unfold bind, ret. by rewrite Hall.
    + eapply forEachChunk_keeps; [|exact Hall].
      intros. by eapply anonymizeText_keeps.
Qed.

(** X4: where the detected spans do not overlap, [anonymizeText] returns
    the input with each span replaced by the value that the resulting
    session stores for its entity's type and value, and entities with the
    same type and value get the same replacement. *)
Theorem anonymizeText_same_value_same_replacement (text : jsstring)
    (st : Session) (es : list DetectedEntity) :
  detectEntities text = Some es -> nonOverlapping es ->
  exists out st' reps,
    anonymizeText text st = Returns (out, st')
    /\ Forall2 (fun e r => storedValue st' (type e) (value e) = Some r)
               (reverse es) reps
    /\ out = interleave (outside text 0 (spanOf <$> reverse es)) reps
    /\ consistentReplacements (reverse es) reps.
Proof.
  intros Hes Hno.
  destruct (anonymizeText_disjoint_preserved text st es Hes Hno)
    as (out & st' & reps & Hrun & Hreps & Hout & _).
  exists out, st', reps. split; [done|]. split; [done|]. split; [done|].
  intros i j e1 e2 r1 r2 He1 He2 Hr1 Hr2 Hty Hval.
  pose proof (Forall2_lookup_lr _ _ _ _ _ _ Hreps He1 Hr1) as H1.
  pose proof (Forall2_lookup_lr _ _ _ _ _ _ Hreps He2 Hr2) as H2.
  simpl in H1, H2. rewrite Hty, Hval in H1. congruence.
Qed.

End SessionFacts.

(** ** More on the detector *)

Lemma Iter_le_max (L : nat -> nat -> Prop) (k : nat) :
  (forall x y, L x y -> y <= x + k) ->
  forall n x y, Iter L n x y -> y <= x + n * k.
Proof.
  intros HL n. induction n as [|n IH]; simpl; intros x y Hit.
  - subst. lia.
  - destruct Hit as (m & Hxm & Hmy).
    apply HL in Hxm. apply IH in Hmy. lia.
Qed.

(** A match consumes at most [maxLen] code units. *)
Lemma Lang_maxLen (ic : bool) (text : jsstring) (r : Regex) :
  forall k x y, maxLen r = Some k -> Lang ic text r x y -> y <= x + k.
Proof.
  induction r as [|atoms|r1 IH1 r2 IH2|r1 IH1 r2 IH2|min max r IH|];
    simpl; intros k x y Hk HL.
  - injection Hk as <-. subst. lia.
  - injection Hk as <-. destruct HL as (ch & _ & _ & ->). lia.
  - destruct (maxLen r1) as [a|]; [|done].
    destruct (maxLen r2) as [b|]; [|done].
    simpl in Hk. injection Hk as <-.
    destruct HL as (m & H1 & H2).
    apply (IH1 a) in H1; [|done]. apply (IH2 b) in H2; [|done]. lia.
  - destruct (maxLen r1) as [a|]; [|done].
    destruct (maxLen r2) as [b|]; [|done].
    simpl in Hk. injection Hk as <-.
    destruct HL as [H1|H2];
      [apply (IH1 a) in H1|apply (IH2 b) in H2]; try done; lia.
  - destruct max as [kmax|]; [|done].
    destruct (maxLen r) as [a|]; [|done].
    simpl in Hk. injection Hk as <-.
    destruct HL as (n & _ & Hmax & Hit). simpl in Hmax.
    apply (Iter_le_max _ a) in Hit; [nia|].
    intros x' y' HL'. by apply (IH a).
  - injection Hk as <-. destruct HL as [-> _]. lia.
Qed.

(** X5: the length of a detected value is within the bounds of its
    type's pattern: e-mail 6 or more, phone 8 to 17, IBAN 15 to 31,
    fiscal code exactly 16, card 16 to 19, person name 5 or more. *)
Theorem detectEntities_value_lengths (text : jsstring) :
  exists es, detectEntities text = Some es /\ Forall lengthInRange es.
Proof.
  destruct (detectEntities_total text) as [es Hes].
  exists es. split; [done|].
  apply detectEntities_spec in Hes as [_ Hall].
  eapply List.Forall_impl; [|exact Hall].
  intros e [(_ & Hlt & Hlen & Hval) (R & HR & HL)].
  assert (Hvlen : length (value e) = end_ e - start e).
  { rewrite Hval. apply substring_length; lia. }
  pose proof (Lang_minLen _ _ _ _ _ HL) as Hmin.
  unfold lengthInRange. rewrite Hvlen.
  unfold PATTERNS in HR. rewrite !elem_of_cons, elem_of_nil in HR.
  repeat destruct HR as [HR|HR]; try done;
    apply pair_equal_spec in HR as [-> ->];
    match goal with
    | |- context [lengthRange ?ty] =>
        let rg := eval vm_compute in (lengthRange ty) in
        change (lengthRange ty) with rg
    end;
    match type of Hmin with
    | context [minLen ?r] =>
        let m := eval vm_compute in (minLen r) in
        change (minLen r) with m in Hmin
    end;
    cbn [fst snd withinMax];
    (split; [lia|]); try exact I;
    match type of HL with
    | Lang _ _ ?r _ _ =>
        let k := eval vm_compute in (maxLen r) in
        match k with
        | Some ?n =>
            pose proof (Lang_maxLen _ _ r n _ _ eq_refl HL) as Hmax; lia
        end
    end.
Qed.

(** ** Matches of one type *)

Lemma execLoop_ascending (ty : jsstring) (R : RegExp) (text : jsstring) :
  wfRegex (source R) = true -> 0 < minLen (source R) ->
  forall fuel lastIndex es,
    execLoop fuel ty R text lastIndex = Some es ->
    ascendingFrom lastIndex es.
Proof.
  intros Hwf Hmin fuel.
  induction fuel as [|fuel IH]; simpl; intros lastIndex es Hrun; [discriminate|].
  destruct (RegExpBuiltinExec R text lastIndex) as [[idx e]|] eqn:Hex.
  - destruct (execLoop fuel ty R text e) as [rest|] eqn:Hrest; [|discriminate].
    simpl in Hrun. injection Hrun as <-.
    apply RegExpBuiltinExec_spec in Hex as (Hidx & Hlen & He & HL); [|done].
    simpl. rewrite substring_length by lia.
    replace (idx + (e - idx)) with e by lia.
    repeat split; [done|lia|by eapply IH].
  - injection Hrun as <-. done.
Qed.

Lemma ascendingFrom_starts (l : list DetectedEntity) :
  forall from, ascendingFrom from l ->
    Forall (fun b => from <= start b /\ start b < end_ b) l.
Proof.
  induction l as [|a l IH]; simpl; intros from Hasc; [constructor|].
  destruct Hasc as (Hfrom & Hlt & Hrest).
  constructor; [done|].
  eapply List.Forall_impl; [|exact (IH _ Hrest)]. simpl. intros; lia.
Qed.

Lemma insertEntity_back (a : DetectedEntity) (l : list DetectedEntity) :
  Forall (fun b => start a < start b) l -> insertEntity a l = l ++ [a].
Proof.
  induction 1 as [|b l Hb _ IH]; simpl; [done|].
  replace (start b <=? start a) with false
    by (symmetry; apply Nat.leb_gt; lia).
  by rewrite IH.
Qed.

Lemma insertEntity_front (a : DetectedEntity) (l : list DetectedEntity) :
  Forall (fun b => start b <= start a) l -> insertEntity a l = a :: l.
Proof.
  destruct 1 as [|b l Hb _]; simpl; [done|].
  by replace (start b <=? start a) with true
    by (symmetry; apply Nat.leb_le; lia).
Qed.

(** The sort of a sequence with strictly ascending starts is its reverse. *)
Lemma sortEntities_ascending (l : list DetectedEntity) :
  forall from, ascendingFrom from l -> sortEntities l = reverse l.
Proof.
  induction l as [|a l IH]; intros from Hasc; [done|].
  destruct Hasc as (Hfrom & Hlt & Hrest). simpl.
  rewrite (IH _ Hrest), reverse_cons.
  apply insertEntity_back. apply Forall_reverse.
  eapply List.Forall_impl; [|exact (ascendingFrom_starts _ _ Hrest)].
  simpl. intros; lia.
Qed.

Lemma disjointDescending_snoc (l : list DetectedEntity) (a : DetectedEntity) :
  disjointDescending l -> Forall (fun b => end_ a <= start b) l ->
  disjointDescending (l ++ [a]).
Proof.
  induction l as [|b l IH]; simpl; intros Hd Hall.
  - split; constructor.
  - destruct Hd as [Hb Hd]. inversion Hall; subst.
    split; [|by apply IH].
    apply Forall_app. split; [done|]. by repeat constructor.
Qed.

Lemma ascendingFrom_reverse (l : list DetectedEntity) :
  forall from, ascendingFrom from l -> disjointDescending (reverse l).
Proof.
  induction l as [|a l IH]; intros from Hasc; [done|].
  destruct Hasc as (Hfrom & Hlt & Hrest).
  rewrite reverse_cons. apply disjointDescending_snoc; [by eapply IH|].
  apply Forall_reverse.
  eapply List.Forall_impl; [|exact (ascendingFrom_starts _ _ Hrest)].
  simpl. intros; lia.
Qed.

Lemma Forall_filter_weak {A} (P Q : A -> Prop) `{!forall x, Decision (P x)}
    (l : list A) :
  Forall Q l -> Forall Q (filter P l).
Proof.
  rewrite !list.Forall_forall. intros HQ x Hx.
  apply list_elem_of_filter in Hx as [_ Hx]. by apply HQ.
Qed.

Lemma filter_all {A} (P : A -> Prop) `{!forall x, Decision (P x)} (l : list A) :
  Forall P l -> filter P l = l.
Proof.
  induction 1 as [|x l Hx _ IH]; [done|].
  by rewrite filter_cons_True, IH.
Qed.

Lemma filter_none {A} (P : A -> Prop) `{!forall x, Decision (P x)} (l : list A) :
  Forall (fun x => ~ P x) l -> filter P l = [].
Proof.
  induction 1 as [|x l Hx _ IH]; [done|].
  by rewrite filter_cons_False.
Qed.

(** Filtering commutes with the insertion into a sorted sequence. *)
Lemma filter_insertEntity (P : DetectedEntity -> Prop)
    `{!forall e, Decision (P e)} (a : DetectedEntity) (l : list DetectedEntity) :
  descendingStart l ->
  filter P (insertEntity a l)
  = if decide (P a) then insertEntity a (filter P l) else filter P l.
Proof.
  induction l as [|b l IH]; intros Hd.
  - simpl. rewrite filter_cons, filter_nil. by destruct (decide (P a)).
  - apply descendingStart_cons in Hd as [Hall Hd]. simpl.
    destruct (start b <=? start a) eqn:Hcmp.
    + apply Nat.leb_le in Hcmp.
      rewrite (filter_cons _ a). destruct (decide (P a)) as [Ha|Ha]; [|done].
      symmetry. apply insertEntity_front.
      apply Forall_filter_weak. constructor; [done|].
      eapply List.Forall_impl; [|exact Hall]. simpl. intros; lia.
    + rewrite (filter_cons _ b), IH by done.
      rewrite (filter_cons _ b).
      destruct (decide (P b)) as [Hb|Hb], (decide (P a)) as [Ha|Ha];
        try done.
      simpl. by rewrite Hcmp.
Qed.

Lemma filter_sortEntities (P : DetectedEntity -> Prop)
    `{!forall e, Decision (P e)} (l : list DetectedEntity) :
  filter P (sortEntities l) = sortEntities (filter P l).
Proof.
  induction l as [|a l IH]; [done|]. simpl.
  rewrite filter_insertEntity by apply sortEntities_descending.
  rewrite filter_cons, IH. by destruct (decide (P a)).
Qed.

Lemma PATTERNS_keys_NoDup : NoDup (PATTERNS.*1).
Proof.
  apply NoDup_ListNoDup. repeat constructor; simpl;
    intros Hin; repeat destruct Hin as [Hin|Hin]; try done;
    vm_compute in Hin; discriminate Hin.
Qed.

(** Of the matches collected pattern by pattern, those of one type are
    the matches of one pattern, in the order they were found. *)
Lemma filter_type_found (text ty : jsstring) (fuel : nat)
    (pats : list (jsstring * RegExp)) (found : list (list DetectedEntity)) :
  Forall2 (fun p es => execLoop fuel p.1 p.2 text 0 = Some es) pats found ->
  Forall (fun p => wfRegex (source p.2) = true /\ 0 < minLen (source p.2)) pats ->
  NoDup (pats.*1) ->
  (ty ∉ pats.*1 -> filter (fun e => type e = ty) (concat found) = [])
  /\ ascendingFrom 0 (filter (fun e => type e = ty) (concat found)).
Proof.
  induction 1 as [|[ty' R] es pats found Hrun _ IH]; intros Hwf Hnd.
  - simpl. done.
  - inversion Hwf as [|? ? [HwfR HminR] Hwf']; subst.
    rewrite fmap_cons in Hnd. apply list.NoDup_cons in Hnd as [Hnotin Hnd].
    destruct (IH Hwf' Hnd) as [IHnone IHasc]. simpl in *.
    pose proof (execLoop_spec _ _ _ HwfR HminR _ _ _ Hrun) as Hspec.
    rewrite list.filter_app.
    destruct (decide (ty' = ty)) as [->|Hne].
    + rewrite IHnone by done. rewrite app_nil_r.
      rewrite filter_all.
      * split; [|by eapply execLoop_ascending].
        intros Hn. exfalso. apply Hn. apply elem_of_cons. by left.
      * eapply List.Forall_impl; [|exact Hspec]. by intros e (_ & Hty & _).
    + rewrite filter_none.
      * split; [|done]. intros Hn. apply IHnone.
        intros Hin. apply Hn. apply elem_of_cons. by right.
      * eapply List.Forall_impl; [|exact Hspec].
        intros e (_ & Hty & _). congruence.
Qed.

(** X6: matches of one type never overlap: among the entities of a type,
    each ends at or before the start of every one that precedes it in
    the returned sequence. *)
Theorem detectEntities_same_type_disjoint (text ty : jsstring) :
  exists es, detectEntities text = Some es
    /\ disjointDescending (filter (fun e => type e = ty) es).
Proof.
  destruct (detectEntities_total text) as [es Hes].
  exists es. split; [done|].
  unfold detectEntities in Hes.
  destruct (mapM _ PATTERNS) as [found|] eqn:Hfound; [|discriminate].
  simpl in Hes. injection Hes as <-.
  rewrite filter_sortEntities.
  apply mapM_Some in Hfound.
  assert (Hfound' : Forall2 (fun p es =>
            execLoop (S (S (length text))) p.1 p.2 text 0 = Some es)
            PATTERNS found).
  { eapply List.Forall2_impl; [|exact Hfound]. by intros [ty' R] es. }
  destruct (filter_type_found text ty _ _ _ Hfound' PATTERNS_wf
              PATTERNS_keys_NoDup) as [_ Hasc].
  rewrite (sortEntities_ascending _ _ Hasc). by eapply ascendingFrom_reverse.
Qed.

(** ** The generated fiscal code *)

Section FiscalCode.
Context `{FakerLib}.

Lemma randomLetter_letter (r : Rng) :
  exists c, (randomLetter r).1 = [c] /\ inShapeClass ShapeLetter c.
Proof.
  unfold randomLetter, gbind, gret.
  destruct (Math_floor_random_times (length letters) r) as [k r'].
  simpl. eexists. split; [done|].
  assert (Hall : Forall isUpperAZ letters).
  { unfold isUpperAZ. repeat constructor; vm_compute; congruence. }
  destruct (letters !! k) as [c|] eqn:Hk; simpl.
  - rewrite list.Forall_forall in Hall. apply Hall.
    by eapply list_elem_of_lookup_2.
  - unfold isUpperAZ. lia.
Qed.

Lemma randomDigit_digit (r : Rng) :
  drawsInRange ->
  exists c, (randomDigit r).1 = [c] /\ inShapeClass ShapeDigit c.
Proof.
  intros Hrange. unfold randomDigit, gbind, gret.
  specialize (Hrange 10 r).
  destruct (Math_floor_random_times 10 r) as [k r'].
  simpl in *. assert (Hk : k < 10) by (apply Hrange; lia).
  do 10 (destruct k as [|k]; [eexists; split; [reflexivity|simpl; lia]|]).
  lia.
Qed.

Lemma gconcat_shape (shape : list ShapeClass) (gens : list (Gen jsstring)) :
  Forall2 (fun k g => forall r, exists c, (g r).1 = [c] /\ inShapeClass k c)
          shape gens ->
  forall r, Forall2 inShapeClass shape (gconcat gens r).1.
Proof.
  induction 1 as [|k g shape gens Hg _ IH]; intros r; simpl.
  - constructor.
  - unfold gbind, gret.
    destruct (Hg r) as (c & Hc & Hin).
    destruct (g r) as [a r1]. simpl in Hc. subst a.
    specialize (IH r1). destruct (gconcat gens r1) as [b r2].
    simpl in *. by constructor.
Qed.

(** X7: [generateFakeFiscalCode] returns 16 code units in the shape of
    a fiscal code: capital letters A-Z and digits 0-9 in the positions
    the fiscal-code pattern has them. *)
Theorem generateFakeFiscalCode_shape (r : Rng) :
  drawsInRange ->
  Forall2 inShapeClass fiscalCodeShape (generateFakeFiscalCode r).1.
Proof.
  intros Hrange. apply gconcat_shape.
  repeat constructor; intros r';
    first [apply randomLetter_letter | by apply randomDigit_digit].
Qed.

End FiscalCode.

(** ** Texts in which nothing can match *)

Lemma class_trigger (atoms : list ClassAtom) (ch : N) :
  forallb isTrigger (flat_map atomMembers atoms) = true ->
  charSetMatches false atoms ch = true -> isTrigger ch = true.
Proof.
  intros Hall Hcs. apply charSetMatches_members in Hcs.
  rewrite forallb_forall in Hall. apply Hall. by apply list_elem_of_In.
Qed.

(** With the [i] flag a class of digits still matches digits only. *)
Lemma digit_class_ignoreCase (ch : N) :
  charSetMatches true [range "0" "9"] ch = true -> (48 <= ch <= 57)%N.
Proof.
  unfold charSetMatches. intros Hex.
  apply existsb_exists in Hex as (a & Hin & Heq).
  apply N.eqb_eq in Heq.
  change (flat_map atomMembers [range "0" "9"]) with (N_range 48 57 ++ []) in Hin.
  rewrite app_nil_r in Hin.
  apply list_elem_of_In, elem_of_N_range in Hin.
  unfold Canonicalize in Heq.
  destruct (N.leb_spec 97 a), (N.leb_spec a 122),
    (N.leb_spec 97 ch), (N.leb_spec ch 122); simpl in Heq; lia.
Qed.

Lemma Lang_Quantified_first (ic : bool) (text : jsstring) (min : nat)
    (max : option nat) (r : Regex) (x y : nat) :
  Lang ic text (Quantified min max r) x y -> 1 <= min ->
  exists m, Lang ic text r x m.
Proof.
  simpl. intros (n & Hn & _ & Hit) Hmin.
  destruct n as [|n]; [lia|]. destruct Hit as (m & HL & _). eauto.
Qed.

Lemma isTrigger_digit (c : N) : (48 <= c <= 57)%N -> isTrigger c = true.
Proof.
  intros Hc. unfold isTrigger.
  replace (48 <=? c)%N with true by (symmetry; apply N.leb_le; lia).
  by replace (c <=? 57)%N with true by (symmetry; apply N.leb_le; lia).
Qed.

(** Every match of every pattern contains a digit, an [@] or a capital
    letter. *)
Lemma pattern_needs_trigger (ty : jsstring) (R : RegExp) (text : jsstring)
    (x y : nat) :
  (ty, R) ∈ PATTERNS ->
  Lang (ignoreCase R) text (source R) x y ->
  exists i c, text !! i = Some c /\ isTrigger c = true.
Proof.
  unfold PATTERNS. rewrite !elem_of_cons, elem_of_nil.
  intros Hin. repeat destruct Hin as [Hin|Hin]; try done;
    apply pair_equal_spec in Hin as [_ ->].
  - unfold EMAIL_ADDRESS_re, flags_g. cbn [source ignoreCase seqs Lang].
    intros (m1 & _ & m2 & Hat & _). unfold Lit in Hat. cbn [Lang] in Hat.
    destruct Hat as (ch & Hch & Hcs & _). exists m1, ch. split; [done|].
    by apply (class_trigger [char "@"]).
  - unfold PHONE_NUMBER_re, flags_g. cbn [source ignoreCase seqs Lang].
    intros (m1 & _ & [(m2 & Hd & _)|(m2 & Hd & _)]);
      unfold Lit in Hd; cbn [Lang] in Hd;
      destruct Hd as (ch & Hch & Hcs & _); exists m1, ch; (split; [done|]).
    + by apply (class_trigger [char "3"]).
    + by apply (class_trigger [char "0"]).
  - unfold IBAN_CODE_re, flags_gi. cbn [source ignoreCase seqs Lang].
    intros (m1 & _ & m2 & Hd & _). unfold Times in Hd.
    apply Lang_Quantified_first in Hd as (m & Hd); [|lia].
    unfold digit in Hd. cbn [Lang] in Hd.
    destruct Hd as (ch & Hch & Hcs & _). exists m1, ch. split; [done|].
    by apply isTrigger_digit, digit_class_ignoreCase.
  - unfold FISCAL_CODE_re, flags_gi. cbn [source ignoreCase seqs Lang].
    intros (m1 & _ & m2 & Hd & _). unfold Times in Hd.
    apply Lang_Quantified_first in Hd as (m & Hd); [|lia].
    unfold digit in Hd. cbn [Lang] in Hd.
    destruct Hd as (ch & Hch & Hcs & _). exists m1, ch. split; [done|].
    by apply isTrigger_digit, digit_class_ignoreCase.
  - unfold CREDIT_CARD_re, flags_g. cbn [source ignoreCase seqs Lang].
    intros (m1 & _ & Hd). unfold Times in Hd.
    apply Lang_Quantified_first in Hd as (m & Hd); [|lia].
    cbn [Lang] in Hd.
    destruct Hd as (ch & Hch & Hcs & _). exists m1, ch. split; [done|].
    by apply (class_trigger [ClassEscape_d]).
  - unfold PERSON_re, flags_g, capitalizedWord, upper.
    cbn [source ignoreCase seqs Lang].
    intros (m0 & _ & m1 & (m2 & (ch & Hch & Hcs & _) & _) & _).
    exists m0, ch. split; [done|].
    by apply (class_trigger [range "A" "Z"]).
Qed.

Lemma detectEntities_no_trigger (text : jsstring) :
  Forall (fun c => isTrigger c = false) text -> detectEntities text = Some [].
Proof.
  intros Hfree. unfold detectEntities.
  assert (Hnone : forall ty R lastIndex, (ty, R) ∈ PATTERNS ->
            RegExpBuiltinExec R text lastIndex = None).
  { intros ty R lastIndex Hin.
    destruct (RegExpBuiltinExec R text lastIndex) as [[idx e]|] eqn:Hex; [|done].
    pose proof PATTERNS_wf as Hwf. rewrite list.Forall_forall in Hwf.
    destruct (Hwf _ Hin) as [HwfR _].
    apply RegExpBuiltinExec_spec in Hex as (_ & _ & _ & HL); [|done].
    destruct (pattern_needs_trigger _ _ _ _ _ Hin HL) as (i & c & Hc & Htr).
    rewrite list.Forall_forall in Hfree.
    rewrite Hfree in Htr; [done|]. by eapply list_elem_of_lookup_2. }
  assert (Hfound : mapM (fun '(ty, pattern) =>
              execLoop (S (S (length text))) ty pattern text 0) PATTERNS
            = Some ((fun _ => []) <$> PATTERNS)).
  { apply mapM_Some. apply Forall2_fmap_r, Forall_Forall2_diag.
    apply list.Forall_forall. intros [ty R] Hin.
    cbn [execLoop]. by rewrite (Hnone ty R 0 Hin). }
  rewrite Hfound. done.
Qed.

Section NoTrigger.
Context `{FakerLib}.

Lemma chunkLoop_Forall (P : N -> Prop) (size : nat) (text : jsstring) :
  Forall P text ->
  forall fuel i, Forall (Forall P) (chunkLoop fuel size text i).
Proof.
  intros HP fuel. induction fuel as [|fuel IH]; intros i; simpl; [constructor|].
  destruct (i <? length text); [|constructor].
  constructor; [|apply IH].
  rewrite substring_take_drop by lia. by apply Forall_take, Forall_drop.
Qed.

Lemma forEachChunk_unchanged (chunks : list jsstring) (st : Session) :
  Forall (fun chunk => anonymizeText chunk st = Returns (chunk, st)) chunks ->
  forEachChunk chunks st = Returns (chunks, st).
Proof.
  induction 1 as [|chunk rest Hc _ IH]; simpl; [done|].
  unfold bind, ret. by rewrite Hc, IH.
Qed.

(** X8: a text without digits, [@] and capital letters A-Z is returned as
    it is by both paths of the engine, whatever its length, and the
    session is left untouched. *)
Theorem anonymize_no_trigger_unchanged (text : jsstring) (st : Session) :
  Forall (fun c => isTrigger c = false) text ->
  anonymizeText text st = Returns (text, st)
  /\ anonymizeTextChunked text st = Returns (text, st).
Proof.
  intros Hfree.
  assert (Hone : forall t, Forall (fun c => isTrigger c = false) t ->
            anonymizeText t st = Returns (t, st)).
  { intros t Ht. unfold anonymizeText.
    by rewrite (detectEntities_no_trigger t Ht). }
  split; [by apply Hone|].
  unfold anonymizeTextChunked.
  assert (Hsize : 0 < N.to_nat CHUNK_SIZE) by (unfold CHUNK_SIZE; lia).
  generalize dependent (N.to_nat CHUNK_SIZE). intros size Hsize.
  unfold bind, ret. rewrite forEachChunk_unchanged.
  - by rewrite chunkLoop_concat by lia.
  - eapply List.Forall_impl; [|by apply chunkLoop_Forall].
    simpl. intros chunk Hchunk. by apply Hone.
Qed.

End NoTrigger.

(** ** Lines and file names *)

Lemma split_nonempty (sep : N) (s : jsstring) : split sep s <> [].
Proof.
  destruct s as [|c s]; simpl; [done|].
  destruct (c =? sep)%N; [done|]. by destruct (split sep s).
Qed.

Lemma split_app (sep : N) (a b : jsstring) :
  split sep (a ++ sep :: b) = split sep a ++ split sep b.
Proof.
  induction a as [|c a IH]; simpl.
  - by rewrite N.eqb_refl.
  - destruct (c =? sep)%N; [by rewrite IH|].
    rewrite IH. pose proof (split_nonempty sep a).
    by destruct (split sep a).
Qed.

Lemma split_no_sep (sep : N) (s : jsstring) : sep ∉ s -> split sep s = [s].
Proof.
  induction s as [|c s IH]; intros Hs; [done|]. simpl.
  rewrite not_elem_of_cons in Hs. destruct Hs as [Hc Hs].
  replace (c =? sep)%N with false by (symmetry; apply N.eqb_neq; congruence).
  by rewrite IH.
Qed.

Lemma split_pieces (sep : N) (s : jsstring) :
  Forall (fun piece => sep ∉ piece) (split sep s).
Proof.
  induction s as [|c s IH]; simpl.
  - repeat constructor. apply not_elem_of_nil.
  - destruct (c =? sep)%N eqn:Hc.
    + constructor; [apply not_elem_of_nil|done].
    + apply N.eqb_neq in Hc.
      destruct (split sep s) as [|piece pieces].
      * repeat constructor. rewrite list_elem_of_singleton. congruence.
      * inversion IH; subst. constructor; [|done].
        rewrite not_elem_of_cons. split; [congruence|done].
Qed.

Lemma join_cons (sep p : jsstring) (rest : list jsstring) :
  rest <> [] -> join sep (p :: rest) = p ++ sep ++ join sep rest.
Proof. by destruct rest. Qed.

(** Joining the pieces of a split gives the string back. *)
Lemma join_split (sep : N) (s : jsstring) : join [sep] (split sep s) = s.
Proof.
  induction s as [|c s IH]; [done|]. simpl.
  destruct (c =? sep)%N eqn:Hc.
  - apply N.eqb_eq in Hc. subst c.
    rewrite join_cons by apply split_nonempty. by rewrite IH.
  - pose proof (split_nonempty sep s).
    destruct (split sep s) as [|piece pieces]; [done|].
    destruct pieces as [|piece' pieces]; simpl in *; by rewrite <- IH.
Qed.

(** Splitting what was joined from separator-free pieces gives them back. *)
Lemma split_join (sep : N) (parts : list jsstring) :
  parts <> [] -> Forall (fun piece => sep ∉ piece) parts ->
  split sep (join [sep] parts) = parts.
Proof.
  intros Hne Hall. induction Hall as [|p rest Hp Hrest IH]; [done|].
  destruct rest as [|q rest].
  - simpl. by apply split_no_sep.
  - rewrite join_cons by done.
    change (p ++ [sep] ++ join [sep] (q :: rest))
      with (p ++ sep :: join [sep] (q :: rest)).
    rewrite split_app, IH by done. by rewrite split_no_sep.
Qed.

Lemma join_take_drop (sep : jsstring) (parts : list jsstring) :
  forall k, 0 < k < length parts ->
    join sep parts = join sep (take k parts) ++ sep ++ join sep (drop k parts).
Proof.
  induction parts as [|p rest IH]; intros k Hk; simpl in Hk; [lia|].
  destruct k as [|k]; [lia|].
  destruct rest as [|q rest]; [simpl in Hk; lia|].
  rewrite join_cons by done.
  destruct k as [|k].
  - done.
  - change (take (S (S k)) (p :: q :: rest))
      with (p :: take (S k) (q :: rest)).
    change (drop (S (S k)) (p :: q :: rest)) with (drop (S k) (q :: rest)).
    rewrite (IH (S k)) by (simpl in *; lia).
    rewrite (join_cons sep p (take (S k) (q :: rest))) by done.
    by rewrite <- !app_assoc.
Qed.

Lemma join_take_prefix (sep : jsstring) (parts : list jsstring) (k : nat) :
  exists rest, join sep parts = join sep (take k parts) ++ rest.
Proof.
  destruct (decide (length parts <= k)) as [Hge|Hlt].
  - exists []. by rewrite take_ge, app_nil_r.
  - destruct k as [|k].
    + exists (join sep parts). done.
    + eexists. apply join_take_drop. lia.
Qed.

Section FileFacts.
Context `{FakerLib}.

(** X9: for a positive [n], the text [anonymizeFirstNLines] works on is
    a prefix of the file, and its lines are exactly the first [n] lines
    of the file. *)
Theorem firstLines_lines (text : jsstring) (n : Z) :
  (0 < n)%Z ->
  (exists rest, text = firstLines text n ++ rest)
  /\ split 10 (firstLines text n) = take (Z.to_nat n) (split 10 text).
Proof.
  intros Hn. unfold firstLines, sliceTo.
  replace (n <? 0)%Z with false by (symmetry; apply Z.ltb_ge; lia).
  split.
  - destruct (join_take_prefix [10%N] (split 10 text) (Z.to_nat n)) as [rest Hrest].
    exists rest. by rewrite <- Hrest, join_split.
  - apply split_join.
    + pose proof (split_nonempty 10 text).
      destruct (split 10 text); [done|].
      destruct (Z.to_nat n) eqn:Hk; [lia|done].
    + apply Forall_take, split_pieces.
Qed.


End FileFacts.

Lemma last_snoc_take {A} (l : list A) (x : A) :
  list.last (l ++ [x]) = Some x
  /\ take (length (l ++ [x]) - 1) (l ++ [x]) = l.
Proof.
  split; [apply last_snoc|].
  rewrite length_app. simpl.
  replace (length l + 1 - 1) with (length l) by lia.
  apply take_app_length.
Qed.

Lemma getOutputFileName_split (now : DateParts) (stem ext : jsstring) :
  46%N ∉ ext ->
  getOutputFileName now (stem ++ 46%N :: ext)
  = stem ++ js "_anonymized_" ++ getTimestamp now ++ 46%N :: ext.
Proof.
  intros Hext. unfold getOutputFileName. cbv zeta.
  rewrite split_app, (split_no_sep 46 ext) by done.
  destruct (last_snoc_take (split 46 stem) ext) as [-> ->]. simpl default.
  change (js ".") with [46%N]. by rewrite join_split.
Qed.

(** X11: for a file name [stem.ext], [ext] without a dot,
    [getOutputFileName] gives [stem_anonymized_<timestamp>.ext]: the
    extension is kept and dots in the stem are left alone. *)
Theorem getOutputFileName_stem_ext (now : DateParts) (stem ext : jsstring) :
  46%N ∉ ext ->
  getOutputFileName now (stem ++ js "." ++ ext)
  = stem ++ js "_anonymized_" ++ getTimestamp now ++ js "." ++ ext.
Proof.
  intros Hext. by apply getOutputFileName_split.
Qed.





(** ** Date strings *)

Lemma js_cons (c : ascii) (s : string) : js (String c s) = N_of_ascii c :: js s.
Proof. done. Qed.

Lemma js_inj (s t : string) : js s = js t -> s = t.
Proof.
  revert t. induction s as [|c s IH]; intros [|d t]; try done.
  rewrite !js_cons. intros [= Hc Hs].
  f_equal; [|by apply IH].
  rewrite <- (ascii_N_embedding c), <- (ascii_N_embedding d). by rewrite Hc.
Qed.

Lemma to_uint_nonnil (n : nat) : Nat.to_uint n <> Decimal.Nil.
Proof.
  intros Hnil. pose proof (Unsigned.to_of (Nat.to_uint n)) as Hnorm.
  rewrite Unsigned.of_to, Hnil in Hnorm. discriminate Hnorm.
Qed.

Lemma natToString_inj (n m : nat) : natToString n = natToString m -> n = m.
Proof.
  unfold natToString. intros Heq. apply js_inj in Heq.
  apply (f_equal NilZero.uint_of_string) in Heq.
  rewrite !NilZero.usu in Heq by apply to_uint_nonnil.
  injection Heq as Heq. by apply Unsigned.to_uint_inj.
Qed.

Lemma NilEmpty_digits (d : Decimal.uint) :
  Forall isDigit (js (NilEmpty.string_of_uint d)).
Proof.
  unfold isDigit.
  induction d; simpl NilEmpty.string_of_uint; rewrite ?js_cons;
    [constructor|constructor; [vm_compute; split; discriminate|done]..].
Qed.

Lemma natToString_digits (n : nat) : Forall isDigit (natToString n).
Proof.
  unfold natToString, NilZero.string_of_uint.
  destruct (Nat.to_uint n) eqn:Hd; try (rewrite <- Hd; apply NilEmpty_digits).
  unfold isDigit. repeat constructor; vm_compute; discriminate.
Qed.

Lemma paddedTo2_upto_31 (k : nat) : k <= 31 -> paddedTo2 k = true.
Proof.
  intros Hk.
  assert (Hall : forallb paddedTo2 (seq 0 32) = true) by (vm_compute; reflexivity).
  rewrite forallb_forall in Hall. apply Hall, in_seq. lia.
Qed.

Lemma paddedTo2_spec (k : nat) :
  paddedTo2 k = true ->
  twoDigits (padStart 2 (js "0") (natToString k)) = k
  /\ Forall isDigit (padStart 2 (js "0") (natToString k)).
Proof.
  unfold paddedTo2. rewrite !andb_true_iff.
  intros [[_ Htwo] Hdig]. split; [by apply Nat.eqb_eq|].
  rewrite forallb_forall in Hdig. apply List.Forall_forall.
  intros c Hc. apply Hdig in Hc.
  apply andb_true_iff in Hc as [H1 H2].
  apply N.leb_le in H1, H2. by split.
Qed.

Lemma dateString_inj (a b : DateParts) :
  validDate a -> validDate b -> getTimestamp a = getTimestamp b -> a = b.
Proof.
  intros [Hma Hda] [Hmb Hdb]. unfold getTimestamp. cbv zeta.
  destruct (paddedTo2_spec (getMonth a + 1)) as [Hma2 Hmad];
    [apply paddedTo2_upto_31; lia|].
  destruct (paddedTo2_spec (getMonth b + 1)) as [Hmb2 Hmbd];
    [apply paddedTo2_upto_31; lia|].
  destruct (paddedTo2_spec (getDate a)) as [Hda2 _];
    [apply paddedTo2_upto_31; lia|].
  destruct (paddedTo2_spec (getDate b)) as [Hdb2 _];
    [apply paddedTo2_upto_31; lia|].
  change (js "_") with [95%N]. intros Heq.
  assert (Hsep : ~ isDigit 95%N) by (unfold isDigit; lia).
  apply (first_outside isDigit) in Heq as (Hyear & _ & Heq);
    [|apply natToString_digits..|done|done].
  apply (first_outside isDigit) in Heq as (Hmonth & _ & Hday);
    [|done..].
  apply natToString_inj in Hyear.
  rewrite Hmonth in Hma2. rewrite Hday in Hda2.
  destruct a, b. simpl in *. f_equal; lia.
Qed.

(** X13: on valid dates (month 0 to 11, day 1 to 31) the date string of
    [getTimestamp], and of [getDateString], which is the same function,
    tells the days apart: equal strings come from equal dates. *)
Theorem date_strings_distinct (a b : DateParts) :
  validDate a -> validDate b ->
  getTimestamp a = getTimestamp b \/ getDateString a = getDateString b ->
  a = b.
Proof.
  intros Ha Hb [Heq|Heq]; by apply dateString_inj.
Qed.

(** ** escapeCSV *)

Lemma doubleQuotes_inj (a b : jsstring) :
  doubleQuotes a = doubleQuotes b -> a = b.
Proof.
  unfold doubleQuotes. revert b.
  induction a as [|x a IH]; intros [|y b]; simpl; try done.
  - by destruct (y =? 34)%N.
  - by destruct (x =? 34)%N.
  - destruct (N.eqb_spec x 34) as [->|Hx], (N.eqb_spec y 34) as [->|Hy];
      simpl; intros Heq.
    + injection Heq as Heq. f_equal. by apply IH.
    + injection Heq as Hy' _. congruence.
    + injection Heq as Hx' _. congruence.
    + injection Heq as -> Heq. f_equal. by apply IH.
Qed.

Lemma escapeCSV_plain (str : jsstring) :
  (bool_decide (44%N ∈ str) || bool_decide (34%N ∈ str)
     || bool_decide (10%N ∈ str)) = false ->
  (44%N ∉ str) /\ (34%N ∉ str) /\ (10%N ∉ str).
Proof.
  rewrite !orb_false_iff, !bool_decide_eq_false. tauto.
Qed.

(** X14: [escapeCSV] never gives two different strings the same escaped
    form. *)
Theorem escapeCSV_injective (a b : jsstring) :
  escapeCSV a = escapeCSV b -> a = b.
Proof.
  unfold escapeCSV.
  destruct (_ || _ || bool_decide (10%N ∈ a)) eqn:Ha;
    destruct (_ || _ || bool_decide (10%N ∈ b)) eqn:Hb; intros Heq.
  - simpl in Heq. injection Heq as Heq.
    apply app_inv_tail in Heq. by apply doubleQuotes_inj.
  - apply escapeCSV_plain in Hb as (_ & Hq & _).
    exfalso. apply Hq. rewrite <- Heq. simpl. apply elem_of_cons. by left.
  - apply escapeCSV_plain in Ha as (_ & Hq & _).
    exfalso. apply Hq. rewrite Heq. simpl. apply elem_of_cons. by left.
  - done.
Qed.

Lemma countQuotes_cons (c : N) (s : jsstring) :
  countQuotes (c :: s)
  = if decide (c = 34%N) then S (countQuotes s) else countQuotes s.
Proof.
  unfold countQuotes. rewrite filter_cons. by destruct (decide (c = 34%N)).
Qed.

(** Before a code unit of [doubleQuotes str] that is not a quote, the
    quotes come in pairs. *)
Lemma doubleQuotes_even (str : jsstring) :
  forall pre c post,
    doubleQuotes str = pre ++ c :: post -> c <> 34%N ->
    Nat.Even (countQuotes pre).
Proof.
  unfold doubleQuotes.
  induction str as [|x str IH]; intros pre c post Heq Hc; simpl in Heq.
  - by destruct pre.
  - destruct (N.eqb_spec x 34) as [->|Hx]; simpl in Heq.
    + destruct pre as [|p1 [|p2 pre]]; simpl in Heq.
      * injection Heq as <- _. done.
      * injection Heq as <- <- _. done.
      * injection Heq as <- <- Heq.
        rewrite !countQuotes_cons, !decide_True by done.
        apply (IH _ _ _ Heq) in Hc. destruct Hc as [k Hk].
        exists (S k). lia.
    + destruct pre as [|p1 pre]; simpl in Heq.
      * exists 0. done.
      * injection Heq as <- Heq.
        rewrite countQuotes_cons, decide_False by done. by eapply IH.
Qed.

(** X15: every comma and every line feed of an escaped field has an odd
    number of quotes before it: it lies inside the quotes and is not
    read as the end of the field or of the row. *)
Theorem escapeCSV_separators_quoted (str pre post : jsstring) (c : N) :
  escapeCSV str = pre ++ c :: post ->
  c = 44%N \/ c = 10%N ->
  Nat.Odd (countQuotes pre).
Proof.
  unfold escapeCSV.
  destruct (_ || _ || bool_decide (10%N ∈ str)) eqn:Hq; intros Heq Hc.
  - assert (Hc34 : c <> 34%N) by (destruct Hc; subst; discriminate).
    destruct pre as [|p pre]; simpl in Heq.
    + injection Heq as <- _. done.
    + injection Heq as <- Heq.
      rewrite countQuotes_cons, decide_True by done.
      assert (Hin : exists post', doubleQuotes str = pre ++ c :: post').
      { induction post as [|y post IHpost] using rev_ind.
        - apply app_inj_tail in Heq as [_ Heq]. congruence.
        - rewrite app_comm_cons, app_assoc in Heq.
          apply app_inj_tail in Heq as [Heq _]. eauto. }
      destruct Hin as [post' Hin].
      apply doubleQuotes_even in Hin as [k Hk]; [|done].
      exists k. lia.
  - apply escapeCSV_plain in Hq as (Hcomma & _ & Hlf).
    exfalso. destruct Hc as [-> | ->].
    + apply Hcomma. rewrite Heq. apply elem_of_app. right. by left.
    + apply Hlf. rewrite Heq. apply elem_of_app. right. by left.
Qed.

(** ** The matcher finds a match where there is one *)

Section MatcherComplete.
Variable ic : bool.
Variable text : jsstring.

Lemma Lang_bounds (r : Regex) (x y : nat) :
  Lang ic text r x y -> x <= y <= Nat.max x (length text).
Proof.
  intros HL. pose proof (Lang_minLen _ _ _ _ _ HL).
  pose proof (Lang_upper _ _ _ _ _ HL). lia.
Qed.

Lemma RepeatMatcher_complete (L : nat -> nat -> Prop) (m : Matcher) :
  (forall x y c z, L x y -> c y = Some z -> is_Some (m x c)) ->
  (forall x y, L x y -> x <= y <= Nat.max x (length text)) ->
  forall n fuel min max x y c z,
    Iter L n x y -> min <= n -> withinMax max n -> c y = Some z ->
    min + (length text - x) < fuel ->
    is_Some (RepeatMatcher fuel m min max x c).
Proof.
  intros Hm Hb n.
  induction n as [|n IH]; intros fuel min max x y c z Hit Hmin Hmax Hc Hfuel.
  - simpl in Hit. subst y. assert (min = 0) as -> by lia.
    destruct fuel as [|fuel]; [lia|].
    destruct max as [[|k]|]; cbn [RepeatMatcher]; [by eauto| |].
    + simpl. destruct (m x _); [by eauto|]. rewrite Hc. by eauto.
    + simpl. destruct (m x _); [by eauto|]. rewrite Hc. by eauto.
  - destruct Hit as (m1 & HL & Hit).
    destruct fuel as [|fuel]; [lia|].
    pose proof (Hb _ _ HL) as Hm1.
    assert (Hmax0 : max <> Some 0).
    { intros ->. simpl in Hmax. lia. }
    assert (Hmax' : withinMax (pred <$> max) n).
    { destruct max as [k|]; simpl in *; [lia|done]. }
    assert (Hmax'' : withinMax max n).
    { destruct max as [k|]; simpl in *; [lia|done]. }
    destruct (decide (min = 0)) as [->|Hmin0].
    + destruct (decide (m1 = x)) as [->|Hne].
      * eapply (IH (S fuel) 0 max x y c z); eauto; lia.
      * assert (Hd : is_Some (RepeatMatcher fuel m 0 (pred <$> max) m1 c)).
        { eapply (IH fuel 0 _ m1 y c z); eauto; lia. }
        destruct Hd as [z' Hd].
        assert (Hstep : is_Some (m x (fun y' =>
                  if (0 =? 0) && (y' =? x) then None
                  else RepeatMatcher fuel m (pred 0) (pred <$> max) y' c))).
        { eapply (Hm x m1 _ z'); [done|].
          replace (m1 =? x) with false by (symmetry; apply Nat.eqb_neq; lia).
          simpl. exact Hd. }
        destruct Hstep as [z'' Hstep].
        destruct max as [[|k]|]; cbn [RepeatMatcher]; [done| |];
          simpl; simpl in Hstep; rewrite Hstep; by eauto.
    + assert (Hd : is_Some (RepeatMatcher fuel m (pred min) (pred <$> max) m1 c)).
      { eapply (IH fuel (pred min) _ m1 y c z); eauto; lia. }
      destruct Hd as [z' Hd].
      assert (Hstep : is_Some (m x (fun y' =>
                if (min =? 0) && (y' =? x) then None
                else RepeatMatcher fuel m (pred min) (pred <$> max) y' c))).
      { eapply (Hm x m1 _ z'); [done|].
        replace (min =? 0) with false by (symmetry; apply Nat.eqb_neq; lia).
        simpl. exact Hd. }
      assert (Hz : (min =? 0) = false) by (apply Nat.eqb_neq; lia).
      destruct max as [[|k]|]; cbn [RepeatMatcher]; [done| |];
        rewrite Hz in Hstep |- *; exact Hstep.
Qed.

(** Completeness of the backtracking matcher: where the pattern can match
    up to a point the continuation accepts, the matcher does not fail. *)
Lemma matchRe_complete (r : Regex) :
  forall x y c z,
    Lang ic text r x y -> c y = Some z -> is_Some (matchRe ic text r x c).
Proof.
  induction r as [|atoms|r1 IH1 r2 IH2|r1 IH1 r2 IH2|min max r IH|];
    intros x y c z HL Hc; cbn [matchRe Lang] in *.
  - subst. eauto.
  - destruct HL as (ch & Hch & Hcs & ->). rewrite Hch, Hcs. eauto.
  - destruct HL as (m & H1 & H2).
    destruct (IH2 _ _ _ _ H2 Hc) as [z' Hz'].
    eapply (IH1 x m); [done|exact Hz'].
  - destruct HL as [H1|H2].
    + destruct (IH1 _ _ _ _ H1 Hc) as [z' ->]. eauto.
    + destruct (matchRe ic text r1 x c); [eauto|]. by eapply IH2.
  - destruct HL as (n & Hmin & Hmax & Hit).
    eapply (RepeatMatcher_complete (Lang ic text r)); eauto;
      first [by intros; eapply Lang_bounds | unfold repeatFuel; lia].
  - destruct HL as [-> Hx]. rewrite Hx. eauto.
Qed.

End MatcherComplete.

Lemma scanFrom_none (R : RegExp) (text : jsstring) (n i0 : nat) :
  scanFrom R text n i0 = None ->
  forall i y, i0 <= i < i0 + n -> ~ Lang (ignoreCase R) text (source R) i y.
Proof.
  revert i0. induction n as [|n IH]; simpl; intros i0 Hs i y Hi HL; [lia|].
  destruct (matchRe _ _ _ i0 Some) as [e|] eqn:Hm; [done|].
  destruct (decide (i = i0)) as [->|Hne].
  - destruct (matchRe_complete _ _ _ _ _ Some y HL eq_refl) as [z Hz].
    congruence.
  - eapply (IH (S i0)); [done| |exact HL]. lia.
Qed.

Lemma scanFrom_leftmost (R : RegExp) (text : jsstring) (n i0 idx e : nat) :
  scanFrom R text n i0 = Some (idx, e) ->
  forall i y, i0 <= i < idx -> ~ Lang (ignoreCase R) text (source R) i y.
Proof.
  revert i0. induction n as [|n IH]; simpl; intros i0 Hs i y Hi HL; [done|].
  destruct (matchRe _ _ _ i0 Some) as [e'|] eqn:Hm.
  - injection Hs as <- <-. lia.
  - destruct (decide (i = i0)) as [->|Hne].
    + destruct (matchRe_complete _ _ _ _ _ Some y HL eq_refl) as [z Hz].
      congruence.
    + eapply (IH (S i0)); [done| |exact HL]. lia.
Qed.

(** Every place from [lastIndex] on where the pattern can match is inside
    one of the matches the loop collects. *)
Lemma execLoop_covers (ty : jsstring) (R : RegExp) (text : jsstring) :
  wfRegex (source R) = true -> 0 < minLen (source R) ->
  forall fuel lastIndex es i j,
    execLoop fuel ty R text lastIndex = Some es ->
    lastIndex <= i ->
    Lang (ignoreCase R) text (source R) i j ->
    exists e, e ∈ es /\ type e = ty /\ start e <= i < end_ e.
Proof.
  intros Hwf Hmin fuel.
  induction fuel as [|fuel IH]; simpl; intros lastIndex es i j Hrun Hi HL;
    [discriminate|].
  assert (Hlen : i < length text).
  { pose proof (Lang_minLen _ _ _ _ _ HL).
    pose proof (Lang_upper _ _ _ _ _ HL). lia. }
  destruct (RegExpBuiltinExec R text lastIndex) as [[idx e]|] eqn:Hex.
  - destruct (execLoop fuel ty R text e) as [rest|] eqn:Hrest; [|discriminate].
    simpl in Hrun. injection Hrun as <-.
    pose proof Hex as Hleft. unfold RegExpBuiltinExec in Hleft.
    apply RegExpBuiltinExec_spec in Hex as (Hidx & Hlen' & He & HLe); [|done].
    assert (Hge : idx <= i).
    { destruct (decide (idx <= i)); [done|].
      exfalso. eapply (scanFrom_leftmost _ _ _ _ _ _ Hleft i j); [lia|done]. }
    destruct (decide (i < e)) as [Hin|Hout].
    + eexists. split; [apply elem_of_cons; by left|]. simpl.
      rewrite substring_length by lia. split; [done|lia].
    + destruct (IH e rest i j Hrest) as (e' & He' & Hty & Hspan); [lia|done|].
      exists e'. split; [apply elem_of_cons; by right|done].
  - exfalso. unfold RegExpBuiltinExec in Hex.
    eapply (scanFrom_none _ _ _ _ Hex i j); [lia|done].
Qed.

Lemma detectEntities_covers (text ty : jsstring) (R : RegExp) (i j : nat) :
  (ty, R) ∈ PATTERNS ->
  Lang (ignoreCase R) text (source R) i j ->
  exists es e, detectEntities text = Some es
    /\ e ∈ es /\ type e = ty /\ start e <= i < end_ e.
Proof.
  intros Hin HL.
  destruct (detectEntities_total text) as [es Hes].
  exists es. assert (Hes0 := Hes). unfold detectEntities in Hes.
  destruct (mapM _ PATTERNS) as [found|] eqn:Hfound; [|discriminate].
  simpl in Hes. injection Hes as <-.
  apply mapM_Some in Hfound.
  pose proof PATTERNS_wf as Hwf. rewrite list.Forall_forall in Hwf.
  destruct (Hwf _ Hin) as [HwfR HminR].
  apply list_elem_of_lookup in Hin as [k Hk].
  destruct (Forall2_lookup_l _ _ _ _ _ Hfound Hk) as (esk & Hesk & Hrun).
  cbv beta iota in Hrun.
  destruct (execLoop_covers _ _ _ HwfR HminR _ _ _ i j Hrun) as (e & He & Hty & Hspan);
    [lia|done|].
  exists e. split; [done|]. split; [|done].
  rewrite sortEntities_Permutation.
  apply list_elem_of_In, in_concat. exists esk.
  split; apply list_elem_of_In; [by eapply list_elem_of_lookup_2|done].
Qed.

(** X16: the detector misses no place where a pattern can match: every
    such place lies inside a detected entity of the pattern's type (it
    starts one, or an earlier match of the same type runs over it). *)
Theorem detectEntities_covers_matches (text ty : jsstring) (R : RegExp)
    (i j : nat) :
  (ty, R) ∈ PATTERNS ->
  Lang (ignoreCase R) text (source R) i j ->
  exists es e, detectEntities text = Some es
    /\ e ∈ es /\ type e = ty /\ start e <= i < end_ e.
Proof.
  intros Hin HL. by eapply detectEntities_covers.
Qed.

(** ** A generated fiscal code is a fiscal code for the detector *)

Lemma shape_class (k : ShapeClass) (c : N) :
  inShapeClass k c ->
  charSetMatches true
    (match k with
     | ShapeLetter => [range "A" "Z"]
     | ShapeDigit => [range "0" "9"]
     end) c = true.
Proof.
  intros Hc. unfold charSetMatches. apply existsb_exists. exists c.
  split; [|apply N.eqb_refl].
  destruct k; simpl in Hc; [destruct Hc as [Hlo Hhi]|];
    [change (In c (N_range 65 90 ++ []))|change (In c (N_range 48 57 ++ []))];
    rewrite app_nil_r; unfold N_range; apply in_map_iff;
    [exists (N.to_nat (c - 65))|exists (N.to_nat (c - 48))];
    (split; [lia|apply in_seq; lia]).
Qed.

Lemma Lang_shape_class (text : jsstring) (k : ShapeClass) (c : N) (x : nat) :
  text !! x = Some c -> inShapeClass k c ->
  Lang true text
    (match k with ShapeLetter => upper | ShapeDigit => digit end) x (S x).
Proof.
  intros Hx Hc. apply shape_class in Hc.
  destruct k; exists c; done.
Qed.

Section FiscalCodeMatch.
Variables pre code post : jsstring.
Hypothesis Hshape : Forall2 inShapeClass fiscalCodeShape code.

Lemma Lang_fiscal_unit (k : nat) (s : ShapeClass) :
  fiscalCodeShape !! k = Some s ->
  Lang true (pre ++ code ++ post)
    (match s with ShapeLetter => upper | ShapeDigit => digit end)
    (length pre + k) (S (length pre + k)).
Proof using Hshape.
  intros Hk.
  destruct (Forall2_lookup_l _ _ _ _ _ Hshape Hk) as (c & Hc & Hin).
  eapply Lang_shape_class; [|exact Hin].
  rewrite lookup_app_r by lia.
  replace (length pre + k - length pre) with k by lia.
  by apply lookup_app_l_Some.
Qed.

Lemma Lang_fiscal_code :
  Lang true (pre ++ code ++ post) (source FISCAL_CODE_re)
       (length pre) (length pre + 16).
Proof using Hshape.
  pose proof (fun k => Lang_fiscal_unit k ShapeLetter) as HU.
  pose proof (fun k => Lang_fiscal_unit k ShapeDigit) as HD.
  cbv beta iota in HU, HD.
  set (text := pre ++ code ++ post) in *. clearbody text.
  set (p := length pre) in *. clearbody p.
  assert (H0 := HU 0 eq_refl). assert (H1 := HU 1 eq_refl).
  assert (H2 := HU 2 eq_refl). assert (H3 := HU 3 eq_refl).
  assert (H4 := HU 4 eq_refl). assert (H5 := HU 5 eq_refl).
  assert (H6 := HD 6 eq_refl). assert (H7 := HD 7 eq_refl).
  assert (H8 := HU 8 eq_refl). assert (H9 := HD 9 eq_refl).
  assert (H10 := HD 10 eq_refl). assert (H11 := HU 11 eq_refl).
  assert (H12 := HD 12 eq_refl). assert (H13 := HD 13 eq_refl).
  assert (H14 := HD 14 eq_refl). assert (H15 := HU 15 eq_refl).
  clear HU HD.
  rewrite <- Nat.add_succ_r, Nat.add_0_r in H0.
  rewrite <- Nat.add_succ_r in H1, H2, H3, H4, H5, H6, H7, H8, H9, H10,
    H11, H12, H13, H14, H15.
  change (source FISCAL_CODE_re)
    with (Seq (Times 6 upper) (Seq (Times 2 digit) (Seq upper
           (Seq (Times 2 digit) (Seq upper (Seq (Times 3 digit) upper)))))).
  unfold Times. cbn [Lang Iter withinMax].
  exists (p + 6). split.
  { exists 6. repeat split; [lia..|].
    exists (p + 1). split; [done|]. exists (p + 2). split; [done|].
    exists (p + 3). split; [done|]. exists (p + 4). split; [done|].
    exists (p + 5). split; [done|]. exists (p + 6). by split. }
  exists (p + 8). split.
  { exists 2. repeat split; [lia..|].
    exists (p + 7). split; [done|]. exists (p + 8). by split. }
  exists (p + 9). split; [done|].
  exists (p + 11). split.
  { exists 2. repeat split; [lia..|].
    exists (p + 10). split; [done|]. exists (p + 11). by split. }
  exists (p + 12). split; [done|].
  exists (p + 15). split.
  { exists 3. repeat split; [lia..|].
    exists (p + 13). split; [done|]. exists (p + 14). split; [done|].
    exists (p + 15). by split. }
  done.
Qed.

End FiscalCodeMatch.

(** Every code unit of a match belongs to a class of the pattern. *)
Lemma Lang_units (P : N -> Prop) (ic : bool) (text : jsstring) (r : Regex) :
  classesWithin P ic r ->
  forall x y, Lang ic text r x y ->
  forall k, x <= k < y -> exists ch, text !! k = Some ch /\ P ch.
Proof.
  induction r as [|atoms|r1 IH1 r2 IH2|r1 IH1 r2 IH2|min max r IH|];
    simpl; intros Hcl x y HL k Hk.
  - lia.
  - destruct HL as (ch & Hch & Hcs & ->).
    assert (k = x) as -> by lia. eauto.
  - destruct Hcl as [Hcl1 Hcl2]. destruct HL as (m & H1 & H2).
    destruct (decide (k < m)); [eapply IH1|eapply IH2]; eauto; lia.
  - destruct Hcl as [Hcl1 Hcl2].
    destruct HL as [H1|H2]; [eapply IH1|eapply IH2]; eauto.
  - destruct HL as (n & _ & _ & Hit).
    revert x Hit Hk. induction n as [|n IHn]; simpl; intros x Hit Hk.
    + lia.
    + destruct Hit as (m & H1 & Hit).
      destruct (decide (k < m)); [eapply IH|eapply IHn]; eauto; lia.
  - lia.
Qed.

(** With the [i] flag the class of capital letters matches letters of
    both cases, and nothing else. *)
Lemma upper_class_ignoreCase (ch : N) :
  charSetMatches true [range "A" "Z"] ch = true ->
  (65 <= ch <= 90)%N \/ (97 <= ch <= 122)%N.
Proof.
  unfold charSetMatches. intros Hex.
  apply existsb_exists in Hex as (a & Hin & Heq).
  apply N.eqb_eq in Heq.
  change (flat_map atomMembers [range "A" "Z"]) with (N_range 65 90 ++ []) in Hin.
  rewrite app_nil_r in Hin.
  apply list_elem_of_In, elem_of_N_range in Hin.
  unfold Canonicalize in Heq.
  destruct (N.leb_spec 97 a), (N.leb_spec a 122),
    (N.leb_spec 97 ch), (N.leb_spec ch 122); simpl in Heq; lia.
Qed.

Lemma isWordCodeUnit_alnum (ch : N) :
  (65 <= ch <= 90)%N \/ (97 <= ch <= 122)%N \/ (48 <= ch <= 57)%N ->
  isWordCodeUnit ch = true.
Proof.
  intros Hch. unfold isWordCodeUnit.
  destruct (N.leb_spec 65 ch), (N.leb_spec ch 90), (N.leb_spec 97 ch),
    (N.leb_spec ch 122), (N.leb_spec 48 ch), (N.leb_spec ch 57);
    simpl; try done; lia.
Qed.

(** A match of the fiscal-code pattern consists of letters and digits. *)
Lemma FISCAL_CODE_units :
  classesWithin (fun ch => isWordCodeUnit ch = true) true
                (source FISCAL_CODE_re).
Proof.
  assert (HU : forall ch, charSetMatches true [range "A" "Z"] ch = true ->
                 isWordCodeUnit ch = true).
  { intros ch Hch. apply isWordCodeUnit_alnum.
    apply upper_class_ignoreCase in Hch. tauto. }
  assert (HD : forall ch, charSetMatches true [range "0" "9"] ch = true ->
                 isWordCodeUnit ch = true).
  { intros ch Hch. apply isWordCodeUnit_alnum.
    apply digit_class_ignoreCase in Hch. tauto. }
  unfold FISCAL_CODE_re, flags_gi, Times, upper, digit.
  cbn [source seqs classesWithin]. repeat split; done.
Qed.

(** A match of the fiscal-code pattern in [pre ++ code ++ post] that
    reaches the first unit of [code] starts there, when no letter, digit
    or underscore stands right before [code]. *)
Lemma fiscal_match_starts_at_code (pre code post : jsstring) (x y : nat) :
  (forall c, list.last pre = Some c -> isWordCodeUnit c = false) ->
  Lang true (pre ++ code ++ post) (source FISCAL_CODE_re) x y ->
  x <= length pre < y ->
  x = length pre.
Proof.
  intros Hlast HL Hspan.
  destruct (decide (x = length pre)) as [|Hne]; [done|exfalso].
  destruct (Lang_units _ _ _ _ FISCAL_CODE_units _ _ HL (pred (length pre)))
    as (ch & Hch & Hword); [lia|].
  rewrite lookup_app_l in Hch by lia.
  rewrite <- last_lookup in Hch.
  apply Hlast in Hch. congruence.
Qed.

Section Redetect.
Context `{FakerLib}.

(** X17: a fiscal code made by [generateFakeFiscalCode] that stands at
    the start of a text, or right after a code unit that is not a letter,
    a digit or an underscore, is detected as it is: the detector returns
    the FISCAL_CODE entity whose span is the 16 code units of the code and
    whose value is the code. *)
Theorem generated_fiscal_code_detected (r : Rng) (pre post : jsstring) :
  drawsInRange ->
  (forall c, list.last pre = Some c -> isWordCodeUnit c = false) ->
  let code := (generateFakeFiscalCode r).1 in
  length code = 16
  /\ exists es,
       detectEntities (pre ++ code ++ post) = Some es
       /\ fiscalCodeEntity pre code ∈ es.
Proof.
  intros Hrange Hlast code.
  assert (Hshape : Forall2 inShapeClass fiscalCodeShape code).
  { apply gconcat_shape.
    repeat constructor; intros r';
      first [apply randomLetter_letter | by apply randomDigit_digit]. }
  clearbody code.
  assert (Hlen : length code = 16).
  { apply Forall2_length in Hshape. by rewrite <- Hshape. }
  split; [done|].
  pose proof (Lang_fiscal_code pre code post Hshape) as HL.
  destruct (detectEntities_covers _ FISCAL_CODE FISCAL_CODE_re _ _
              ltac:(unfold PATTERNS; rewrite !elem_of_cons; tauto) HL)
    as (es & e & Hes & He & Hty & Hspan).
  exists es. split; [done|].
  apply detectEntities_spec in Hes as [_ Hall].
  rewrite list.Forall_forall in Hall.
  destruct (Hall _ He) as [(_ & _ & _ & Hval) (R & HR & HLe)].
  rewrite Hty in HR.
  assert (R = FISCAL_CODE_re) as ->.
  { unfold PATTERNS in HR. rewrite !elem_of_cons, elem_of_nil in HR.
    repeat destruct HR as [HR|HR]; try done;
      apply pair_equal_spec in HR as [Hk HR']; try done;
      by vm_compute in Hk. }
  pose proof (Lang_minLen _ _ _ _ _ HLe) as Hmin.
  pose proof (Lang_maxLen _ _ (source FISCAL_CODE_re) 16 _ _ eq_refl HLe)
    as Hmax.
  change (minLen (source FISCAL_CODE_re)) with 16 in Hmin.
  pose proof (fiscal_match_starts_at_code _ _ _ _ _ Hlast HLe Hspan) as Hstart.
  assert (Hend : end_ e = length pre + 16) by lia.
  rewrite Hstart, Hend, substring_take_drop in Hval by lia.
  replace (length pre + 16 - length pre) with (length code) in Hval by lia.
  rewrite drop_app_length, take_app_length in Hval.
  unfold fiscalCodeEntity. rewrite Hlen.
  destruct e as [ty v s e']. simpl in *. by subst.
Qed.

End Redetect.

(** ** The properties on the sample generator *)

Lemma sampleFaker_drawsInRange : @drawsInRange sampleFaker.
Proof.
  intros n r Hn. simpl. apply Nat.mod_upper_bound. lia.
Defined.

Lemma getFakeValue_consistent_in_session_witness :
  exists f st1 st2,
    getFakeValue PERSON (js "Mario Rossi") freshSession = Returns (f, st1)
    /\ laterSession st1 st2
    /\ st2 <> st1
    /\ getFakeValue PERSON (js "Mario Rossi") st2 = Returns (f, st2).
Proof.
  eexists _, _, _.
  match goal with
  | |- ?A /\ ?B /\ ?C /\ _ =>
      assert (H1 : A) by (vm_compute; reflexivity);
      assert (H2 : B)
        by (eapply (laterSession_step EMAIL_ADDRESS (js "a@b.it"));
            [vm_compute; reflexivity|apply laterSession_refl]);
      assert (H3 : C) by (intros Heq; vm_compute in Heq; discriminate Heq)
  end.
  exact (conj H1 (conj H2 (conj H3
          (getFakeValue_consistent_in_session _ _ _ _ _ _ H1 H2)))).
Defined.

Lemma getFakeValue_other_pairs_witness :
  exists f st1,
    getFakeValue PERSON (js "Mario Rossi") freshSession = Returns (f, st1)
    /\ (EMAIL_ADDRESS, js "a@b.it") <> (PERSON, js "Mario Rossi")
    /\ storedValue st1 EMAIL_ADDRESS (js "a@b.it")
       = storedValue freshSession EMAIL_ADDRESS (js "a@b.it").
Proof.
  eexists _, _.
  match goal with
  | |- ?A /\ ?B /\ _ =>
      assert (H1 : A) by (vm_compute; reflexivity);
      assert (H2 : B) by (intros Heq; vm_compute in Heq; discriminate Heq)
  end.
  exact (conj H1 (conj H2 (getFakeValue_other_pairs _ _ _ _ _ _ _ H1 H2))).
Defined.

Lemma anonymizeText_same_value_same_replacement_witness :
  let text := js "Mario Rossi scrive a Mario Rossi" in
  exists es,
    detectEntities text = Some es /\ nonOverlapping es
    /\ exists out st' reps,
         anonymizeText text freshSession = Returns (out, st')
         /\ Forall2 (fun e r => storedValue st' (type e) (value e) = Some r)
                    (reverse es) reps
         /\ out = interleave (outside text 0 (spanOf <$> reverse es)) reps
         /\ consistentReplacements (reverse es) reps.
Proof.
  intros text. eexists.
  match goal with
  | |- ?A /\ ?B /\ _ =>
      assert (H1 : A) by (vm_compute; reflexivity);
      assert (H2 : B) by (simpl; lia)
  end.
  exact (conj H1 (conj H2
          (anonymizeText_same_value_same_replacement text freshSession _ H1 H2))).
Defined.

Lemma generateFakeFiscalCode_shape_witness :
  @drawsInRange sampleFaker
  /\ Forall2 inShapeClass fiscalCodeShape
       (generateFakeFiscalCode (0 : @Rng sampleFaker)).1.
Proof.
  split; [exact sampleFaker_drawsInRange|].
  exact (generateFakeFiscalCode_shape 0 sampleFaker_drawsInRange).
Defined.

Lemma anonymize_no_trigger_unchanged_witness :
  let text := js "ciao mondo, nessun dato personale in questa frase." in
  Forall (fun c => isTrigger c = false) text
  /\ anonymizeText text freshSession = Returns (text, freshSession)
  /\ anonymizeTextChunked text freshSession = Returns (text, freshSession).
Proof.
  intros text.
  assert (Hno : Forall (fun c => isTrigger c = false) text)
    by (repeat constructor).
  split; [exact Hno|].
  exact (anonymize_no_trigger_unchanged text freshSession Hno).
Defined.

Lemma firstLines_lines_witness :
  let text := js "uno" ++ [10%N] ++ js "due" ++ [10%N] ++ js "tre" in
  (0 < 2)%Z
  /\ (exists rest, text = firstLines text 2 ++ rest)
  /\ split 10 (firstLines text 2) = take (Z.to_nat 2) (split 10 text).
Proof.
  intros text.
  assert (Hn : (0 < 2)%Z) by lia.
  split; [exact Hn|].
  exact (firstLines_lines text 2 Hn).
Defined.


Lemma getOutputFileName_stem_ext_witness :
  let now := {| getFullYear := 2024; getMonth := 0; getDate := 5 |} in
  (46%N ∉ js "csv")
  /\ getOutputFileName now (js "chat.v1" ++ js "." ++ js "csv")
     = js "chat.v1" ++ js "_anonymized_" ++ getTimestamp now ++ js "." ++ js "csv".
Proof.
  intros now.
  assert (Hext : 46%N ∉ js "csv").
  { intros Hin. apply list_elem_of_In in Hin. vm_compute in Hin.
    intuition discriminate. }
  split; [exact Hext|].
  exact (getOutputFileName_stem_ext now (js "chat.v1") (js "csv") Hext).
Defined.


Lemma date_strings_distinct_witness :
  let a := {| getFullYear := 2024; getMonth := 0; getDate := 5 |} in
  let b := {| getFullYear := 2024; getMonth := 1 - 1; getDate := 2 + 3 |} in
  validDate a /\ validDate b
  /\ (getTimestamp a = getTimestamp b \/ getDateString a = getDateString b)
  /\ a = b.
Proof.
  intros a b.
  assert (Ha : validDate a) by (unfold validDate; simpl; lia).
  assert (Hb : validDate b) by (unfold validDate; simpl; lia).
  assert (Hs : getTimestamp a = getTimestamp b
               \/ getDateString a = getDateString b)
    by (left; vm_compute; reflexivity).
  exact (conj Ha (conj Hb (conj Hs (date_strings_distinct a b Ha Hb Hs)))).
Defined.

Lemma escapeCSV_injective_witness :
  let a := js "a,b" in
  let b := js "a" ++ js ",b" in
  escapeCSV a = escapeCSV b /\ a = b.
Proof.
  intros a b.
  assert (He : escapeCSV a = escapeCSV b) by (vm_compute; reflexivity).
  exact (conj He (escapeCSV_injective a b He)).
Defined.

Lemma escapeCSV_separators_quoted_witness :
  let str := js "a,b" in
  escapeCSV str = [34; 97]%N ++ 44%N :: [98; 34]%N
  /\ (44%N = 44%N \/ 44%N = 10%N)
  /\ Nat.Odd (countQuotes [34; 97]%N).
Proof.
  intros str.
  assert (He : escapeCSV str = [34; 97]%N ++ 44%N :: [98; 34]%N)
    by (vm_compute; reflexivity).
  assert (Hc : 44%N = 44%N \/ 44%N = 10%N) by (left; reflexivity).
  exact (conj He (conj Hc
          (escapeCSV_separators_quoted str _ _ _ He Hc))).
Defined.

Lemma detectEntities_covers_matches_witness :
  let text := js "Mario Rossi Bianchi" in
  (PERSON, PERSON_re) ∈ PATTERNS
  /\ Lang (ignoreCase PERSON_re) text (source PERSON_re) 6 19
  /\ exists es e, detectEntities text = Some es
       /\ e ∈ es /\ type e = PERSON /\ start e <= 6 < end_ e.
Proof.
  intros text.
  assert (Hin : (PERSON, PERSON_re) ∈ PATTERNS)
    by (unfold PATTERNS; rewrite !elem_of_cons; tauto).
  assert (HL : Lang (ignoreCase PERSON_re) text (source PERSON_re) 6 19).
  { destruct (matchRe_sound false text (source PERSON_re) eq_refl 6 Some 19)
      as (y & HLy & Hy); [vm_compute; reflexivity|].
    injection Hy as ->. exact HLy. }
  exact (conj Hin (conj HL
          (detectEntities_covers_matches text PERSON PERSON_re 6 19 Hin HL))).
Defined.

Lemma generated_fiscal_code_detected_witness :
  let pre := js "CF " in
  let post := js "1, grazie" in
  let code := (generateFakeFiscalCode (0 : @Rng sampleFaker)).1 in
  @drawsInRange sampleFaker
  /\ (forall c, list.last pre = Some c -> isWordCodeUnit c = false)
  /\ length code = 16
  /\ exists es,
       detectEntities (pre ++ code ++ post) = Some es
       /\ fiscalCodeEntity pre code ∈ es.
Proof.
  intros pre post code.
  assert (Hlast : forall c, list.last pre = Some c -> isWordCodeUnit c = false).
  { intros c Hc. vm_compute in Hc. injection Hc as <-. reflexivity. }
  split; [exact sampleFaker_drawsInRange|]. split; [exact Hlast|].
  exact (generated_fiscal_code_detected 0 pre post sampleFaker_drawsInRange
           Hlast).
Defined.
